(** * Vault API server (server.js): a shallow embedding and its properties

    The service is an Express application over a Mongoose model [Vault] with
    a snapshot written to [backups/] on every mutation.  The embedding follows
    server.js top to bottom:

    - JavaScript values of request bodies and query strings, with the
      language's truthiness, [String.prototype.trim] and the fragment of
      regular expressions that [new RegExp(q,'i')] is used on;
    - the Mongoose schema [vaultSchema]: casting, the [trim] setter, the
      [required] validators, the defaults and the [pre('save')] hook;
    - the process state (collection, backups directory, counters) threaded
      through a state-and-exception monad, the environment (wall clock,
      store and filesystem faults) being an explicit parameter;
    - one definition per route handler, named after the route. *)

From Stdlib Require Import ZArith List String Ascii Bool Lia Arith.
From Stdlib Require Import Permutation Sorted DecimalString.
Import ListNotations.
Local Open Scope string_scope.
Local Open Scope Z_scope.
Set Warnings "-register-all".

(* ===================================================================== *)
(** ** JavaScript values *)
(* ===================================================================== *)

(** What [express.json()] / [express.urlencoded()] can put in a field of
    [req.body]; [JUndefined] is a key that is not in the body.  [JNum] covers
    the integers (printed without exponent, that is below 10^21 in absolute
    value); [JObj] is any plain object, of which only truthiness and the
    failure of the string cast are observed. *)
Inductive jsval : Type :=
| JUndefined
| JNull
| JBool (b : bool)
| JNum (n : Z)
| JStr (s : string)
| JArr (items : list jsval)
| JObj.

(** [!v] is [negb (truthy v)]. *)
Definition truthy (v : jsval) : bool :=
  match v with
  | JUndefined | JNull => false
  | JBool b => b
  | JNum n => negb (n =? 0)
  | JStr s => negb (s =? "")%string
  | JArr _ | JObj => true
  end.

(** [a || b] on values. *)
Definition js_or (a b : jsval) : jsval := if truthy a then a else b.

(** [Number.prototype.toString] on an integer. *)
Definition number_toString (n : Z) : string :=
  NilZero.string_of_int (Z.to_int n).

(** White space removed by [trim], on the ASCII range: TAB, LF, VT, FF, CR
    and SPACE. *)
Definition is_white_space (c : ascii) : bool :=
  match nat_of_ascii c with
  | 9%nat | 10%nat | 11%nat | 12%nat | 13%nat | 32%nat => true
  | _ => false
  end.

Fixpoint trimStart (s : string) : string :=
  match s with
  | EmptyString => EmptyString
  | String c s' => if is_white_space c then trimStart s' else s
  end.

Fixpoint trimEnd (s : string) : string :=
  match s with
  | EmptyString => EmptyString
  | String c s' =>
      let t := trimEnd s' in
      if is_white_space c && (t =? "")%string then EmptyString else String c t
  end.

Definition trim (s : string) : string := trimEnd (trimStart s).

(** A parameter of [req.query] as the query-string parser leaves it: absent,
    a string (possibly empty, as in [?q=]), the list of a repeated parameter
    ([?q=a&q=b]) or an object ([?q[k]=v]). *)
Inductive qparam : Type :=
| QAbsent
| QStr (s : string)
| QList (items : list string)
| QObj.

Definition qtruthy (p : qparam) : bool :=
  match p with
  | QAbsent => false
  | QStr s => negb (s =? "")%string
  | QList _ | QObj => true
  end.

(** [String(p)], the pattern [new RegExp(p, 'i')] is built from. *)
Definition qparam_toString (p : qparam) : string :=
  match p with
  | QAbsent => "undefined"
  | QStr s => s
  | QList items => String.concat "," items
  | QObj => "[object Object]"
  end.

(** [p === s] for a string literal [s]. *)
Definition strict_eq_str (p : qparam) (s : string) : bool :=
  match p with
  | QStr s' => (s' =? s)%string
  | _ => false
  end.

(* ===================================================================== *)
(** ** Regular expressions: the fragment without operators *)
(* ===================================================================== *)

(** The characters that are syntax in a pattern. *)
Definition is_syntax_char (c : ascii) : bool :=
  match nat_of_ascii c with
  | 36%nat  (* $ *) | 40%nat (* ( *) | 41%nat (* ) *) | 42%nat (* * *)
  | 43%nat  (* + *) | 46%nat (* . *) | 63%nat (* ? *) | 91%nat (* [ *)
  | 92%nat  (* \ *) | 93%nat (* ] *) | 94%nat (* ^ *) | 123%nat (* { *)
  | 124%nat (* | *) | 125%nat (* } *) => true
  | _ => false
  end.

Definition is_dot (c : ascii) : bool := (nat_of_ascii c =? 46)%nat.

(** A pattern made of literal characters and [.] only. *)
Inductive atom : Type :=
| Lit (c : ascii)
| AnyChar.

(** [None]: the pattern uses an operator other than [.] and is left to
    [regex_engine] of the environment. *)
Fixpoint parse_atoms (p : string) : option (list atom) :=
  match p with
  | EmptyString => Some []
  | String c p' =>
      match parse_atoms p' with
      | None => None
      | Some l =>
          if is_dot c then Some (AnyChar :: l)
          else if is_syntax_char c then None
          else Some (Lit c :: l)
      end
  end.

(** Case folding of the [i] flag, on the ASCII letters. *)
Definition to_lower (c : ascii) : ascii :=
  let n := nat_of_ascii c in
  if ((65 <=? n) && (n <=? 90))%nat then ascii_of_nat (n + 32) else c.


Definition is_line_feed (c : ascii) : bool := (nat_of_ascii c =? 10)%nat.

Definition atom_matches (a : atom) (c : ascii) : bool :=
  match a with
  | Lit x => Ascii.eqb (to_lower x) (to_lower c)
  | AnyChar => negb (is_line_feed c)
  end.

(** The atoms match a prefix of [s]. *)
Fixpoint match_here (l : list atom) (s : string) : bool :=
  match l, s with
  | [], _ => true
  | _ :: _, EmptyString => false
  | a :: l', String c s' => atom_matches a c && match_here l' s'
  end.

(** Unanchored search: the atoms match at some offset of [s]. *)
Fixpoint regex_search (l : list atom) (s : string) : bool :=
  match_here l s ||
  match s with
  | EmptyString => false
  | String _ s' => regex_search l s'
  end.

(* ===================================================================== *)
(** ** The Mongoose schema [vaultSchema] *)
(* ===================================================================== *)

(** An ObjectId, abstractly: the n-th identifier the driver generates. *)
Definition ObjectId := nat.

(** [req.params.id] as the ObjectId cast sees it: the text of an ObjectId,
    or a string the cast refuses (as in [DELETE /api/vault/abc]). *)
Inductive route_id : Type :=
| ValidId (o : ObjectId)
| MalformedId (raw : string).

(** A document of the collection.  The four schema paths hold whatever the
    casts let through ([JNull] included); the two dates are milliseconds
    since the epoch. *)
Record VaultEntry : Type := mkEntry {
  _id : ObjectId;
  name : jsval;
  content : jsval;
  category : jsval;
  tags : jsval;
  createdAt : Z;
  updatedAt : Z
}.

(** The string cast of a [String] path: [null] and [undefined] pass,
    strings stay, numbers and booleans are printed, arrays and plain objects
    are a CastError ([None]). *)
Definition castString (v : jsval) : option jsval :=
  match v with
  | JUndefined | JNull => Some v
  | JStr s => Some (JStr s)
  | JNum n => Some (JStr (number_toString n))
  | JBool b => Some (JStr (if b then "true" else "false"))
  | JArr _ | JObj => None
  end.

(** [name: { type: String, required: true, trim: true }]: cast, then the
    [trim] setter. *)
Definition cast_name (v : jsval) : option jsval :=
  match castString v with
  | Some (JStr s) => Some (JStr (trim s))
  | r => r
  end.

(** [content: { type: String, required: true }] and
    [category: { type: String, default: 'general' }]. *)
Definition cast_content : jsval -> option jsval := castString.
Definition cast_category : jsval -> option jsval := castString.

Fixpoint cast_each (l : list jsval) : option (list jsval) :=
  match l with
  | [] => Some []
  | v :: l' =>
      match castString v, cast_each l' with
      | Some x, Some r => Some (x :: r)
      | _, _ => None
      end
  end.

(** [tags: [{ type: String }]]: an array is cast element by element, any
    other value is wrapped into a one-element array first. *)
Definition cast_tags (v : jsval) : option jsval :=
  match v with
  | JUndefined | JNull => Some v
  | JArr l => option_map JArr (cast_each l)
  | _ => option_map (fun x => JArr [x]) (castString v)
  end.

(** The [required] validator of a [String] path: a string of positive
    length. *)
Definition required_ok (v : jsval) : bool :=
  match v with
  | JStr s => negb (s =? "")%string
  | _ => false
  end.

(** A path for which the cast failed is left unset. *)
Definition cast_or_unset (r : option jsval) : jsval :=
  match r with Some v => v | None => JUndefined end.

Definition cast_failed (r : option jsval) : bool :=
  match r with Some _ => false | None => true end.

(* ===================================================================== *)
(** ** Process state, environment and the handler monad *)
(* ===================================================================== *)

(** The name [`backup-${operation}-${timestamp}.json`], kept as its two
    components: the operation label and the instant whose ISO-8601 text
    (with [:] and [.] replaced by [-]) is the timestamp. *)
Record BackupName : Type := mkBackupName {
  bn_operation : string;
  bn_stamp : Z
}.

Definition BackupName_eqb (a b : BackupName) : bool :=
  (bn_operation a =? bn_operation b)%string && (bn_stamp a =? bn_stamp b).

(** [backupData] of [createBackup], before [JSON.stringify]. *)
Record BackupData : Type := mkBackupData {
  timestamp : Z;
  operation : string;
  trigger : option (jsval * ObjectId);
  data : list VaultEntry;
  count : nat
}.

(** Writes to the store and to the backups directory, in the order they
    are performed. *)
Inductive event : Type :=
| EvInsert (o : ObjectId)
| EvUpdate (o : ObjectId)
| EvDelete (o : ObjectId)
| EvWriteFile (f : BackupName).

Record World : Type := mkWorld {
  docs : list VaultEntry;               (* the collection, in insertion order *)
  backups_dir : bool;                   (* BACKUPS_DIR exists *)
  files : list (BackupName * BackupData);   (* its content *)
  next_oid : ObjectId;                  (* ObjectIds generated so far *)
  ticks : nat;                          (* clock readings taken so far *)
  db_calls : nat;                       (* store operations issued so far *)
  fs_calls : nat;                       (* file writes issued so far *)
  log : list event
}.

(** What the handlers cannot decide: the readings of [Date.now()], which
    store operations and file writes fail, the outcome of [fs.mkdir] and
    [app.listen] at startup, whether the Mongoose version in use drops
    [undefined] keys of an update (6 and later) or sends them as [null]
    (5 without [omitUndefined]), and the regular-expression engine on
    patterns with operators ([None]: the pattern is a SyntaxError). *)
Record Env : Type := mkEnv {
  clock : nat -> Z;
  db_ok : nat -> bool;
  fs_ok : nat -> bool;
  mkdir_ok : bool;
  listen_ok : bool;
  strips_undefined : bool;
  regex_engine : string -> option (string -> bool)
}.

Inductive Err : Type :=
| CastError
| ValidationError
| StoreError
| FsError
| SyntaxError
| ListenError.

Inductive Outcome (A : Type) : Type :=
| Ok (a : A)
| Throw (e : Err).
Arguments Ok {A} a.
Arguments Throw {A} e.

Definition M (A : Type) : Type := World -> Outcome A * World.

Definition ret {A} (a : A) : M A := fun w => (Ok a, w).

Definition throw {A} (e : Err) : M A := fun w => (Throw e, w).

Definition bind {A B} (m : M A) (k : A -> M B) : M B :=
  fun w =>
    match m w with
    | (Ok a, w') => k a w'
    | (Throw e, w') => (Throw e, w')
    end.

(** [try { m } catch (err) { h err }]. *)
Definition try_catch {A} (m : M A) (h : Err -> M A) : M A :=
  fun w =>
    match m w with
    | (Ok a, w') => (Ok a, w')
    | (Throw e, w') => h e w'
    end.

Definition gets {A} (f : World -> A) : M A := fun w => (Ok (f w), w).

Definition modify (f : World -> World) : M unit := fun w => (Ok tt, f w).

Declare Scope handler_scope.
Delimit Scope handler_scope with handler.
Notation "x <- m ;; k" := (bind m (fun x => k))
  (at level 61, m at next level, right associativity) : handler_scope.
Notation "m ;; k" := (bind m (fun _ => k))
  (at level 61, right associativity) : handler_scope.
Local Open Scope handler_scope.

Definition set_docs (d : list VaultEntry) (w : World) : World :=
  mkWorld d (backups_dir w) (files w) (next_oid w) (ticks w) (db_calls w)
          (fs_calls w) (log w).

Definition set_backups_dir (b : bool) (w : World) : World :=
  mkWorld (docs w) b (files w) (next_oid w) (ticks w) (db_calls w)
          (fs_calls w) (log w).

Definition set_files (f : list (BackupName * BackupData)) (w : World) : World :=
  mkWorld (docs w) (backups_dir w) f (next_oid w) (ticks w) (db_calls w)
          (fs_calls w) (log w).

Definition set_next_oid (n : ObjectId) (w : World) : World :=
  mkWorld (docs w) (backups_dir w) (files w) n (ticks w) (db_calls w)
          (fs_calls w) (log w).

Definition set_ticks (n : nat) (w : World) : World :=
  mkWorld (docs w) (backups_dir w) (files w) (next_oid w) n (db_calls w)
          (fs_calls w) (log w).

Definition set_db_calls (n : nat) (w : World) : World :=
  mkWorld (docs w) (backups_dir w) (files w) (next_oid w) (ticks w) n
          (fs_calls w) (log w).

Definition set_fs_calls (n : nat) (w : World) : World :=
  mkWorld (docs w) (backups_dir w) (files w) (next_oid w) (ticks w)
          (db_calls w) n (log w).

Definition emit (e : event) (w : World) : World :=
  mkWorld (docs w) (backups_dir w) (files w) (next_oid w) (ticks w)
          (db_calls w) (fs_calls w) (log w ++ [e]).

(** [fs.writeFile] creates the file or replaces its content. *)
Fixpoint write_entry (f : BackupName) (d : BackupData)
         (l : list (BackupName * BackupData)) : list (BackupName * BackupData) :=
  match l with
  | [] => [(f, d)]
  | (f', d') :: l' =>
      if BackupName_eqb f' f then (f, d) :: l' else (f', d') :: write_entry f d l'
  end.

(* ===================================================================== *)
(** ** Responses and requests *)
(* ===================================================================== *)

Record ReqBody : Type := mkReqBody {
  body_name : jsval;
  body_content : jsval;
  body_category : jsval;
  body_tags : jsval
}.

(** The JSON documents the vault routes answer with. *)
Inductive body : Type :=
| ErrorBody (error : string) (details : option Err)
| DataBody (entry : VaultEntry)
| MessageBody (message : string) (entry : VaultEntry)
| ListBody (n : nat) (entries : list VaultEntry)
| SearchBody (query : qparam) (n : nat) (entries : list VaultEntry)
| SortBody (sortBy : string) (order : string) (n : nat)
           (entries : list VaultEntry).

Record Response : Type := mkResponse {
  status : nat;
  json : body
}.

Inductive Request : Type :=
| GET_vault_search (q : qparam)
| GET_vault_sort (by_ order : qparam)
| POST_vault (b : ReqBody)
| GET_vault
| GET_vault_id (id : route_id)
| PUT_vault_id (id : route_id) (b : ReqBody)
| DELETE_vault_id (id : route_id).

Inductive Process : Type :=
| Listening
| Exited (code : Z).

Definition dquote : string := String (ascii_of_nat 34) EmptyString.

(* ===================================================================== *)
(** ** Sorting as the store does it *)
(* ===================================================================== *)

(** BSON comparison order of the types a path can hold. *)
Definition bson_rank (v : jsval) : nat :=
  match v with
  | JUndefined | JNull => 1
  | JNum _ => 2
  | JStr _ => 3
  | JObj => 4
  | JArr _ => 5
  | JBool _ => 8
  end%nat.

(** Strings compare byte-wise; values of different types by type.  Objects
    and arrays, which the schema never stores under [name], compare as
    equal among themselves. *)
Definition bson_leb (a b : jsval) : bool :=
  match a, b with
  | JStr s, JStr t => String.leb s t
  | JNum m, JNum n => m <=? n
  | JBool x, JBool y => implb x y
  | _, _ => (bson_rank a <=? bson_rank b)%nat
  end.

(** [{[sortBy]: 1}]. *)
Definition field_leb (sortBy : string) (a b : VaultEntry) : bool :=
  if (sortBy =? "name")%string then bson_leb (name a) (name b)
  else if (sortBy =? "createdAt")%string then createdAt a <=? createdAt b
  else true.

(** [{[sortBy]: sortOrder}] with [sortOrder] 1 or -1. *)
Definition sort_leb (sortBy : string) (sortOrder : Z) (a b : VaultEntry) : bool :=
  if sortOrder =? 1 then field_leb sortBy a b else field_leb sortBy b a.

(** The sort of the store, entries that compare equal staying in the order
    of the collection (one of the orders the store may answer with). *)
Fixpoint insert_by (leb : VaultEntry -> VaultEntry -> bool) (x : VaultEntry)
         (l : list VaultEntry) : list VaultEntry :=
  match l with
  | [] => [x]
  | y :: l' => if leb x y then x :: l else y :: insert_by leb x l'
  end.

Fixpoint sort_by (leb : VaultEntry -> VaultEntry -> bool)
         (l : list VaultEntry) : list VaultEntry :=
  match l with
  | [] => []
  | x :: l' => insert_by leb x (sort_by leb l')
  end.

(** [$or:[{name:regex},{content:regex},{category:regex},{tags:regex}]]: a
    regular expression matches a string field, or an array field one of
    whose elements is a string it matches. *)
Definition element_matches (m : string -> bool) (v : jsval) : bool :=
  match v with
  | JStr s => m s
  | _ => false
  end.

Definition field_matches (m : string -> bool) (v : jsval) : bool :=
  match v with
  | JStr s => m s
  | JArr l => existsb (element_matches m) l
  | _ => false
  end.

Definition doc_matches (m : string -> bool) (e : VaultEntry) : bool :=
  field_matches m (name e) || field_matches m (content e) ||
  field_matches m (category e) || field_matches m (tags e).

Definition has_id (o : ObjectId) (e : VaultEntry) : bool := (_id e =? o)%nat.

(** The [$set] of [findByIdAndUpdate]: [None] leaves the path alone. *)
Definition apply_set (old : jsval) (s : option jsval) : jsval :=
  match s with
  | Some v => v
  | None => old
  end.

Fixpoint update_first (o : ObjectId) (f : VaultEntry -> VaultEntry)
         (l : list VaultEntry) : list VaultEntry :=
  match l with
  | [] => []
  | e :: l' => if has_id o e then f e :: l' else e :: update_first o f l'
  end.

Fixpoint delete_first (o : ObjectId) (l : list VaultEntry) : list VaultEntry :=
  match l with
  | [] => []
  | e :: l' => if has_id o e then l' else e :: delete_first o l'
  end.

(** The update document of the PUT route. *)
Record Update : Type := mkUpdate {
  upd_name : jsval;
  upd_content : jsval;
  upd_category : jsval;
  upd_tags : jsval;
  upd_updatedAt : Z
}.

(** A validator of an update runs on the paths the [$set] names. *)
Definition set_required_ok (s : option jsval) : bool :=
  match s with
  | Some v => required_ok v
  | None => true
  end.

(** A document built by [new Vault(...)]: its paths, and whether a cast
    failed on the way (reported by validation at [save]). *)
Record Document : Type := mkDocument {
  paths : VaultEntry;
  cast_error : bool
}.

(* ===================================================================== *)
(** ** server.js *)
(* ===================================================================== *)

Section Server.

Variable env : Env.

(** [Date.now()] / [new Date()]. *)
Definition Date_now : M Z :=
  fun w => (Ok (clock env (ticks w)), set_ticks (S (ticks w)) w).

(** One round trip to the store. *)
Definition db_call : M unit :=
  fun w =>
    if db_ok env (db_calls w)
    then (Ok tt, set_db_calls (S (db_calls w)) w)
    else (Throw StoreError, set_db_calls (S (db_calls w)) w).

Definition cast_id (id : route_id) : M ObjectId :=
  match id with
  | ValidId o => ret o
  | MalformedId _ => throw CastError
  end.

(** [Vault.find({})]. *)
Definition Vault_find : M (list VaultEntry) :=
  db_call ;; gets docs.

(** [Vault.find({$or: ...})] with the four paths tested against [m]. *)
Definition Vault_find_or (m : string -> bool) : M (list VaultEntry) :=
  db_call ;; gets (fun w => filter (doc_matches m) (docs w)).

(** [Vault.find({}).sort({[sortBy]: sortOrder})]. *)
Definition Vault_find_sort (sortBy : string) (sortOrder : Z)
  : M (list VaultEntry) :=
  db_call ;; gets (fun w => sort_by (sort_leb sortBy sortOrder) (docs w)).

(** [Vault.findById(id)]. *)
Definition Vault_findById (id : route_id) : M (option VaultEntry) :=
  o <- cast_id id ;;
  db_call ;;
  gets (fun w => find (has_id o) (docs w)).

(** [new Vault({name, content, category, tags})]: an ObjectId, the casts
    and setters of the four paths, then the two [Date.now] defaults in
    schema order. *)
Definition new_Vault (n c cat t : jsval) : M Document :=
  oid <- gets next_oid ;;
  modify (set_next_oid (S oid)) ;;
  created <- Date_now ;;
  updated <- Date_now ;;
  ret (mkDocument
         (mkEntry oid
                  (cast_or_unset (cast_name n))
                  (cast_or_unset (cast_content c))
                  (cast_or_unset (cast_category cat))
                  (cast_or_unset (cast_tags t))
                  created updated)
         (cast_failed (cast_name n) || cast_failed (cast_content c) ||
          cast_failed (cast_category cat) || cast_failed (cast_tags t))).

(** [vaultSchema.pre('save', ...)]: [this.updatedAt = Date.now()]. *)
Definition pre_save (e : VaultEntry) : M VaultEntry :=
  now <- Date_now ;;
  ret (mkEntry (_id e) (name e) (content e) (category e) (tags e)
               (createdAt e) now).

(** [newEntry.save()]: validation, the [pre('save')] hook, the insert. *)
Definition save (d : Document) : M VaultEntry :=
  if cast_error d || negb (required_ok (name (paths d)))
     || negb (required_ok (content (paths d)))
  then throw ValidationError
  else
    e <- pre_save (paths d) ;;
    db_call ;;
    modify (fun w => emit (EvInsert (_id e)) (set_docs (docs w ++ [e]) w)) ;;
    ret e.

(** One path of the update document: dropped or sent as [null] when
    [undefined], cast otherwise.  [None] is a CastError. *)
Definition cast_update_path (cast : jsval -> option jsval) (v : jsval)
  : option (option jsval) :=
  match v with
  | JUndefined => if strips_undefined env then Some None else Some (Some JNull)
  | _ => option_map Some (cast v)
  end.

Definition apply_update (sn sc scat st : option jsval) (u : Z)
           (e : VaultEntry) : VaultEntry :=
  mkEntry (_id e) (apply_set (name e) sn) (apply_set (content e) sc)
          (apply_set (category e) scat) (apply_set (tags e) st)
          (createdAt e) u.

(** [Vault.findByIdAndUpdate(id, {name,content,category,tags,updatedAt},
    {new:true, runValidators:true})]. *)
Definition Vault_findByIdAndUpdate (id : route_id) (u : Update)
  : M (option VaultEntry) :=
  o <- cast_id id ;;
  match cast_update_path cast_name (upd_name u),
        cast_update_path cast_content (upd_content u),
        cast_update_path cast_category (upd_category u),
        cast_update_path cast_tags (upd_tags u) with
  | Some sn, Some sc, Some scat, Some st =>
      if set_required_ok sn && set_required_ok sc
      then
        db_call ;;
        found <- gets (fun w => find (has_id o) (docs w)) ;;
        match found with
        | None => ret None
        | Some e =>
            let e' := apply_update sn sc scat st (upd_updatedAt u) e in
            modify (fun w =>
                      emit (EvUpdate o)
                           (set_docs (update_first o (fun _ => e') (docs w)) w)) ;;
            ret (Some e')
        end
      else throw ValidationError
  | _, _, _, _ => throw CastError
  end.

(** [Vault.findByIdAndDelete(id)]. *)
Definition Vault_findByIdAndDelete (id : route_id) : M (option VaultEntry) :=
  o <- cast_id id ;;
  db_call ;;
  found <- gets (fun w => find (has_id o) (docs w)) ;;
  match found with
  | None => ret None
  | Some e =>
      modify (fun w => emit (EvDelete o) (set_docs (delete_first o (docs w)) w)) ;;
      ret (Some e)
  end.

(** [fs.mkdir(BACKUPS_DIR, { recursive: true })]. *)
Definition fs_mkdir : M unit :=
  fun w =>
    if mkdir_ok env then (Ok tt, set_backups_dir true w) else (Throw FsError, w).

(** [fs.writeFile(backupPath, JSON.stringify(backupData, null, 2))]: fails
    when the directory is missing or on a fault of the filesystem. *)
Definition fs_writeFile (f : BackupName) (d : BackupData) : M unit :=
  fun w =>
    if backups_dir w && fs_ok env (fs_calls w)
    then (Ok tt,
          emit (EvWriteFile f)
               (set_files (write_entry f d (files w))
                          (set_fs_calls (S (fs_calls w)) w)))
    else (Throw FsError, set_fs_calls (S (fs_calls w)) w).

Definition ensureBackupsDir : M unit :=
  try_catch fs_mkdir (fun err => ret tt).

Definition createBackup (op : string) (d : jsval * ObjectId) : M BackupName :=
  try_catch
    (stamp <- Date_now ;;
     let backupFileName := mkBackupName op stamp in
     allData <- Vault_find ;;
     now <- Date_now ;;
     let backupData :=
       mkBackupData now op (Some d) allData (List.length allData) in
     fs_writeFile backupFileName backupData ;;
     ret backupFileName)
    (fun err => throw err).

(** [new RegExp(q, 'i')], as a test on strings. *)
Definition new_RegExp (p : string) : M (string -> bool) :=
  match parse_atoms p with
  | Some l => ret (regex_search l)
  | None =>
      match regex_engine env p with
      | Some m => ret m
      | None => throw SyntaxError
      end
  end.

Definition get_vault_search (q : qparam) : M Response :=
  try_catch
    (if negb (qtruthy q)
     then ret (mkResponse 400
                 (ErrorBody ("Search query parameter " ++ dquote ++ "q"
                               ++ dquote ++ " is required") None))
     else
       regex <- new_RegExp (qparam_toString q) ;;
       results <- Vault_find_or regex ;;
       ret (mkResponse 200 (SearchBody q (List.length results) results)))
    (fun err => ret (mkResponse 500 (ErrorBody "Search failed" (Some err)))).

Definition invalid_sort_field : string :=
  "Invalid sort field. Use " ++ dquote ++ "name" ++ dquote ++ " or "
    ++ dquote ++ "date" ++ dquote.

Definition invalid_sort_order : string :=
  "Invalid sort order. Use " ++ dquote ++ "asc" ++ dquote ++ " or "
    ++ dquote ++ "desc" ++ dquote.

(** The two [if] blocks of the sort route: the selected path and direction,
    or the message of the 400. *)
Definition sort_field (by_ : qparam) : string + string :=
  if qtruthy by_ then
    if strict_eq_str by_ "name" then inl "name"
    else if strict_eq_str by_ "date" then inl "createdAt"
    else inr invalid_sort_field
  else inl "createdAt".

Definition sort_order (order : qparam) : Z + string :=
  if qtruthy order then
    if strict_eq_str order "asc" then inl 1
    else if strict_eq_str order "desc" then inl (-1)
    else inr invalid_sort_order
  else inl (-1).

Definition get_vault_sort (by_ order : qparam) : M Response :=
  try_catch
    (match sort_field by_ with
     | inr msg => ret (mkResponse 400 (ErrorBody msg None))
     | inl sortBy =>
         match sort_order order with
         | inr msg => ret (mkResponse 400 (ErrorBody msg None))
         | inl sortOrder =>
             entries <- Vault_find_sort sortBy sortOrder ;;
             ret (mkResponse 200
                    (SortBody sortBy
                              (if sortOrder =? 1 then "ascending" else "descending")
                              (List.length entries) entries))
         end
     end)
    (fun err => ret (mkResponse 500 (ErrorBody "Sort failed" (Some err)))).

Definition post_vault (b : ReqBody) : M Response :=
  try_catch
    (if negb (truthy (body_name b)) || negb (truthy (body_content b))
     then ret (mkResponse 400 (ErrorBody "Name and content are required" None))
     else
       doc <- new_Vault (body_name b) (body_content b)
                        (js_or (body_category b) (JStr "general"))
                        (js_or (body_tags b) (JArr [])) ;;
       newEntry <- save doc ;;
       createBackup "CREATE" (body_name b, _id newEntry) ;;
       ret (mkResponse 201
              (MessageBody "Vault entry created successfully" newEntry)))
    (fun err =>
       ret (mkResponse 500 (ErrorBody "Failed to create vault entry" (Some err)))).

Definition get_vault : M Response :=
  try_catch
    (entries <- Vault_find_sort "createdAt" (-1) ;;
     ret (mkResponse 200 (ListBody (List.length entries) entries)))
    (fun err =>
       ret (mkResponse 500 (ErrorBody "Failed to fetch vault entries" (Some err)))).

Definition get_vault_id (id : route_id) : M Response :=
  try_catch
    (entry <- Vault_findById id ;;
     match entry with
     | None => ret (mkResponse 404 (ErrorBody "Vault entry not found" None))
     | Some e => ret (mkResponse 200 (DataBody e))
     end)
    (fun err =>
       ret (mkResponse 500 (ErrorBody "Failed to fetch vault entry" (Some err)))).

Definition put_vault_id (id : route_id) (b : ReqBody) : M Response :=
  try_catch
    (now <- Date_now ;;
     entry <- Vault_findByIdAndUpdate id
                (mkUpdate (body_name b) (body_content b) (body_category b)
                          (body_tags b) now) ;;
     match entry with
     | None => ret (mkResponse 404 (ErrorBody "Vault entry not found" None))
     | Some e =>
         createBackup "UPDATE" (body_name b, _id e) ;;
         ret (mkResponse 200
                (MessageBody "Vault entry updated successfully" e))
     end)
    (fun err =>
       ret (mkResponse 500 (ErrorBody "Failed to update vault entry" (Some err)))).

Definition delete_vault_id (id : route_id) : M Response :=
  try_catch
    (entry <- Vault_findById id ;;
     match entry with
     | None => ret (mkResponse 404 (ErrorBody "Vault entry not found" None))
     | Some e =>
         createBackup "DELETE" (name e, _id e) ;;
         Vault_findByIdAndDelete id ;;
         ret (mkResponse 200
                (MessageBody "Vault entry deleted successfully" e))
     end)
    (fun err =>
       ret (mkResponse 500 (ErrorBody "Failed to delete vault entry" (Some err)))).

(** [app.listen(PORT, ...)]; a synchronous failure is thrown. *)
Definition app_listen : M unit :=
  if listen_ok env then ret tt else throw ListenError.

(** [startServer()]: the process is listening, or has left through
    [process.exit(1)]. *)
Definition startServer (w : World) : Process * World :=
  match (ensureBackupsDir ;; app_listen) w with
  | (Ok _, w') => (Listening, w')
  | (Throw _, w') => (Exited 1, w')
  end.

(** A handler always answers: its [catch] turns every error into a 500. *)
Definition respond (m : M Response) (w : World) : Response * World :=
  match m w with
  | (Ok r, w') => (r, w')
  | (Throw e, w') =>
      (mkResponse 500 (ErrorBody "Internal server error" (Some e)), w')
  end.

(** The router, literal sub-paths before [/:id]. *)
Definition handle (r : Request) : World -> Response * World :=
  match r with
  | GET_vault_search q => respond (get_vault_search q)
  | GET_vault_sort b o => respond (get_vault_sort b o)
  | POST_vault b => respond (post_vault b)
  | GET_vault => respond get_vault
  | GET_vault_id id => respond (get_vault_id id)
  | PUT_vault_id id b => respond (put_vault_id id b)
  | DELETE_vault_id id => respond (delete_vault_id id)
  end.

(** Requests served one after the other. *)
Fixpoint serve (rs : list Request) (w : World) : list Response * World :=
  match rs with
  | [] => ([], w)
  | r :: rs' =>
      let '(resp, w1) := handle r w in
      let '(resps, w2) := serve rs' w1 in
      (resp :: resps, w2)
  end.

End Server.

(** The process before [startServer()], on an empty collection. *)
Definition boot : World := mkWorld [] false [] 0%nat 0%nat 0%nat 0%nat [].

(** An environment without faults whose clock advances by one millisecond
    at every reading, one whose file writes fail, and one whose clock
    advances by one millisecond every sixteen readings. *)
Definition calm : Env :=
  mkEnv (fun n => Z.of_nat n) (fun _ => true) (fun _ => true) true true true
        (fun _ => None).


Definition same_ms : Env :=
  mkEnv (fun n => Z.of_nat (n / 16)) (fun _ => true) (fun _ => true)
        true true true (fun _ => None).

(** A create request, and the process after startup and after that request
    has been served. *)
Definition sample_body : ReqBody :=
  mkReqBody (JStr "A") (JStr "x") JUndefined JUndefined.

Definition started : World := snd (startServer calm boot).

Definition one_entry : World := snd (handle calm (POST_vault sample_body) started).

Definition sample_entry : VaultEntry :=
  mkEntry 0%nat (JStr "A") (JStr "x") (JStr "general") (JArr []) 0 2.

(** The entries a response carries. *)
Definition response_entries (r : Response) : list VaultEntry :=
  match json r with
  | ErrorBody _ _ => []
  | DataBody e => [e]
  | MessageBody _ e => [e]
  | ListBody _ l => l
  | SearchBody _ _ l => l
  | SortBody _ _ _ l => l
  end.

(* ===================================================================== *)
(** ** The predicates of the specification *)
(* ===================================================================== *)

(** The readings of the wall clock never go back. *)
Definition clock_monotone (env : Env) : Prop :=
  forall i j : nat, (i <= j)%nat -> clock env i <= clock env j.

(** [name] and [content] of the data model: present, and not empty. *)
Definition nonempty_string (v : jsval) : Prop :=
  exists s : string, v = JStr s /\ s <> EmptyString.

Definition entry_ok (e : VaultEntry) : Prop :=
  nonempty_string (name e) /\ nonempty_string (content e)
  /\ createdAt e <= updatedAt e.

(** The shape the schema gives to the paths: the three [String] paths are
    never arrays and [tags], an array path, is never a string. *)
Definition is_array (v : jsval) : bool :=
  match v with JArr _ => true | _ => false end.

Definition is_string (v : jsval) : bool :=
  match v with JStr _ => true | _ => false end.

Definition entry_typed (e : VaultEntry) : Prop :=
  is_array (name e) = false /\ is_array (content e) = false
  /\ is_array (category e) = false /\ is_string (tags e) = false.

Definition entry_good (e : VaultEntry) : Prop := entry_ok e /\ entry_typed e.

(** No reading of the clock from now on is before the last write of [e]. *)
Definition written_in_past (env : Env) (w : World) (e : VaultEntry) : Prop :=
  forall k : nat, (ticks w <= k)%nat -> updatedAt e <= clock env k.

Definition store_ok (env : Env) (w : World) : Prop :=
  Forall (fun e => entry_good e /\ written_in_past env w e
                  /\ (_id e < next_oid w)%nat) (docs w).

(** The identifier of a request, when it names a document of the store. *)
Definition resolves (id : route_id) (w : World) : option VaultEntry :=
  match id with
  | ValidId o => find (has_id o) (docs w)
  | MalformedId _ => None
  end.


(** The write of [createBackup] goes through in [w]. *)
Definition write_succeeds (env : Env) (w : World) : bool :=
  backups_dir w && fs_ok env (fs_calls w).

(** A request keeps the invariant of the collection and answers with
    entries that satisfy it. *)
Definition preserved (env : Env) (r : Request) : Prop :=
  forall w : World,
    store_ok env w ->
    store_ok env (snd (handle env r w))
    /\ Forall entry_good (response_entries (fst (handle env r w))).

(** *** Search, in the words of the specification *)





(** *** Sort, in the words of the specification *)

(** A parameter that is given: present, and not the empty string. *)
Definition given (p : qparam) : Prop := p <> QAbsent /\ p <> QStr "".

Definition invalid_by (p : qparam) : Prop :=
  given p /\ p <> QStr "name" /\ p <> QStr "date".

Definition invalid_order (p : qparam) : Prop :=
  given p /\ p <> QStr "asc" /\ p <> QStr "desc".

(** [name] selects [name]; [date], or no selector, selects [createdAt]. *)
Definition selected_path (by_ : qparam) : string :=
  if strict_eq_str by_ "name" then "name" else "createdAt".

(** [asc] is ascending; [desc], or no direction, is descending. *)
Definition selected_direction (order : qparam) : Z :=
  if strict_eq_str order "asc" then 1 else -1.

(** [a] may come before [b] in a list sorted on [path] in the direction
    [direction] (1 ascending, -1 descending). *)
Definition precedes (path : string) (direction : Z) (a b : VaultEntry) : Prop :=
  match (path =? "name")%string, direction =? 1 with
  | true, true => bson_leb (name a) (name b) = true
  | true, false => bson_leb (name b) (name a) = true
  | false, true => createdAt a <= createdAt b
  | false, false => createdAt b <= createdAt a
  end.

(** The order a comparison function decides. *)
Definition ordered_by (leb : VaultEntry -> VaultEntry -> bool)
           (a b : VaultEntry) : Prop :=
  leb a b = true.



Definition no_mkdir : Env :=
  mkEnv (fun n => Z.of_nat n) (fun _ => true) (fun _ => true) false true true
        (fun _ => None).

(* ===================================================================== *)
(** ** Predicates on routes and states *)
(* ===================================================================== *)

(** The identifiers of the documents of the collection, in its order. *)
Definition ids (w : World) : list ObjectId := map _id (docs w).

(** The names of the files of the backups directory. *)
Definition backup_names (w : World) : list BackupName := map fst (files w).



(** The routes that only read. *)
Definition is_read (r : Request) : bool :=
  match r with
  | GET_vault_search _ | GET_vault_sort _ _ | GET_vault | GET_vault_id _ => true
  | POST_vault _ | PUT_vault_id _ _ | DELETE_vault_id _ => false
  end.




(** Newest first. *)
Definition newest_first (a b : VaultEntry) : Prop := createdAt b <= createdAt a.

(* ===================================================================== *)
(** ** The export and statistics routes *)
(* ===================================================================== *)

Definition newline : string := String (ascii_of_nat 10) EmptyString.

(** [s.repeat(n)]. *)
Fixpoint repeat_string (s : string) (n : nat) : string :=
  match n with
  | O => EmptyString
  | S n' => (s ++ repeat_string s n')%string
  end.

(** The string a value becomes in a template literal; an array is its
    elements joined by commas, [null] and [undefined] elements counting as
    empty. *)
Fixpoint js_toString (v : jsval) : string :=
  match v with
  | JUndefined => "undefined"
  | JNull => "null"
  | JBool b => if b then "true" else "false"
  | JNum n => number_toString n
  | JStr s => s
  | JArr l =>
      String.concat ","
        (map (fun x => match x with
                       | JUndefined | JNull => EmptyString
                       | _ => js_toString x
                       end) l)
  | JObj => "[object Object]"
  end.

(** [l.join(sep)]. *)
Definition array_join (sep : string) (l : list jsval) : string :=
  String.concat sep
    (map (fun x => match x with
                   | JUndefined | JNull => EmptyString
                   | _ => js_toString x
                   end) l).

(** [entry.tags] as the document gives it: the array, the empty array of
    an array path that is not set, or a value without [join] ([None]), on
    which [entry.tags.join] is a TypeError. *)
Definition tags_array (v : jsval) : option (list jsval) :=
  match v with
  | JArr l => Some l
  | JUndefined => Some []
  | _ => None
  end.

Inductive ExportErr : Type :=
| Thrown (e : Err)
| TypeError.

Inductive export_body : Type :=
| ExportDone (message file path : string) (entries : nat)
| ExportFailed (error : string) (details : ExportErr).

Record ExportResponse : Type := mkExportResponse {
  export_status : nat;
  export_json : export_body
}.

Section ExportRoute.

(** [Date.prototype.toISOString], the text of an ObjectId and
    [path.join(__dirname,'export.txt')]. *)
Variable toISOString : Z -> string.
Variable ObjectId_toString : ObjectId -> string.
Variable exportPath : string.

Variable env : Env.

(** The lines written before the entries. *)
Definition export_header (now : Z) (total : nat) : string :=
  (repeat_string "=" 80 ++ newline
   ++ " VAULT DATA EXPORT" ++ newline
   ++ repeat_string "=" 80 ++ newline ++ newline
   ++ "Export Date: " ++ toISOString now ++ newline
   ++ "Total Entries: " ++ number_toString (Z.of_nat total) ++ newline ++ newline
   ++ repeat_string "=" 80 ++ newline ++ newline)%string.

(** The callback of [entries.forEach]: the lines of one entry, or the
    TypeError of [entry.tags.join] ([None]). *)
Definition export_entry (index : nat) (entry : VaultEntry) : option string :=
  match tags_array (tags entry) with
  | None => None
  | Some l =>
      let joined := array_join "," l in
      Some ("Entry #" ++ number_toString (Z.of_nat index + 1) ++ newline
            ++ repeat_string "-" 80 ++ newline
            ++ "ID: " ++ ObjectId_toString (_id entry) ++ newline
            ++ "Name: " ++ js_toString (name entry) ++ newline
            ++ "Category: " ++ js_toString (category entry) ++ newline
            ++ "Tags: " ++ (if (joined =? "")%string then "None" else joined)
            ++ newline
            ++ "Created: " ++ toISOString (createdAt entry) ++ newline
            ++ "Updated: " ++ toISOString (updatedAt entry) ++ newline
            ++ newline ++ "Content:" ++ newline
            ++ js_toString (content entry) ++ newline ++ newline)%string
  end.

Fixpoint export_entries (index : nat) (entries : list VaultEntry)
  : option string :=
  match entries with
  | [] => Some EmptyString
  | entry :: rest =>
      match export_entry index entry with
      | None => None
      | Some block =>
          match export_entries (S index) rest with
          | None => None
          | Some blocks => Some (block ++ blocks)%string
          end
      end
  end.

(** [fs.writeFile(exportPath, exportContent)]. *)
Definition fs_writeFile_export : M unit :=
  fun w =>
    if fs_ok env (fs_calls w)
    then (Ok tt, set_fs_calls (S (fs_calls w)) w)
    else (Throw FsError, set_fs_calls (S (fs_calls w)) w).

(** [GET /api/export]: the response, and the content written to
    [export.txt] when the write went through. *)
Definition get_export : M (ExportResponse * option string) :=
  try_catch
    (entries <- Vault_find_sort env "createdAt" (-1) ;;
     now <- Date_now env ;;
     match export_entries 0 entries with
     | None =>
         ret (mkExportResponse 500 (ExportFailed "Export failed" TypeError),
              None)
     | Some blocks =>
         let exportContent :=
           (export_header now (List.length entries) ++ blocks)%string in
         fs_writeFile_export ;;
         ret (mkExportResponse 200
                (ExportDone "Data exported successfully" "export.txt"
                            exportPath (List.length entries)),
              Some exportContent)
     end)
    (fun err =>
       ret (mkExportResponse 500 (ExportFailed "Export failed" (Thrown err)),
            None)).

End ExportRoute.

(** Equality of values as the store decides it when it groups. *)
Fixpoint list_eqb {A} (eqb : A -> A -> bool) (l m : list A) : bool :=
  match l, m with
  | [], [] => true
  | x :: l', y :: m' => eqb x y && list_eqb eqb l' m'
  | _, _ => false
  end.

Fixpoint jsval_eqb (a b : jsval) : bool :=
  match a, b with
  | JUndefined, JUndefined => true
  | JNull, JNull => true
  | JBool x, JBool y => Bool.eqb x y
  | JNum x, JNum y => x =? y
  | JStr x, JStr y => (x =? y)%string
  | JArr l, JArr m => list_eqb jsval_eqb l m
  | JObj, JObj => true
  | _, _ => false
  end.

(** [_id: '$category']: a path that is not set groups with [null]. *)
Definition group_key (v : jsval) : jsval :=
  match v with
  | JUndefined => JNull
  | _ => v
  end.

(** [count: { $sum: 1 }] for one more document of key [k]. *)
Fixpoint tally (k : jsval) (groups : list (jsval * nat)) : list (jsval * nat) :=
  match groups with
  | [] => [(k, 1%nat)]
  | (k', n) :: rest =>
      if jsval_eqb k' k then (k', S n) :: rest else (k', n) :: tally k rest
  end.

(** [{ $group: { _id: '$category', count: { $sum: 1 } } }]. *)
Definition group_by_category (l : list VaultEntry) : list (jsval * nat) :=
  fold_left (fun groups e => tally (group_key (category e)) groups) l [].

(** [{ $sort: { count: -1 } }], groups of equal count staying in order. *)
Fixpoint insert_group (g : jsval * nat) (l : list (jsval * nat))
  : list (jsval * nat) :=
  match l with
  | [] => [g]
  | h :: l' => if (snd h <=? snd g)%nat then g :: l else h :: insert_group g l'
  end.

Fixpoint sort_groups (l : list (jsval * nat)) : list (jsval * nat) :=
  match l with
  | [] => []
  | g :: l' => insert_group g (sort_groups l')
  end.

Section Stats.

Variable env : Env.

(** [Vault.countDocuments()]. *)
Definition Vault_countDocuments : M nat :=
  db_call env ;; gets (fun w => List.length (docs w)).

(** [Vault.aggregate([{ $group: ... }, { $sort: { count: -1 } }])]. *)
Definition Vault_aggregate_categories : M (list (jsval * nat)) :=
  db_call env ;; gets (fun w => sort_groups (group_by_category (docs w))).

(** [Vault.findOne().sort({createdAt: sortOrder})]. *)
Definition Vault_findOne_sort (sortOrder : Z) : M (option VaultEntry) :=
  db_call env ;;
  gets (fun w => hd_error (sort_by (sort_leb "createdAt" sortOrder) (docs w))).

(** [oldestEntry ? {name: oldestEntry.name, date: oldestEntry.createdAt}
    : null]. *)
Definition summary_entry (o : option VaultEntry) : option (jsval * Z) :=
  match o with
  | Some e => Some (name e, createdAt e)
  | None => None
  end.

End Stats.

(** The sum of the counts of the groups. *)
Definition total_count (groups : list (jsval * nat)) : nat :=
  list_sum (map snd groups).

(** The tags of every entry can be joined. *)
Definition exportable (l : list VaultEntry) : bool :=
  forallb (fun e => match tags_array (tags e) with Some _ => true | None => false end) l.

(** A collection with the categories work, general and general. *)
Definition three_categories : World :=
  mkWorld [mkEntry 0%nat (JStr "a") (JStr "x") (JStr "work") (JArr []) 1 1;
           mkEntry 1%nat (JStr "b") (JStr "x") (JStr "general") (JArr []) 2 2;
           mkEntry 2%nat (JStr "c") (JStr "x") (JStr "general") (JArr []) 3 3]
          true [] 3%nat 0%nat 0%nat 0%nat [].

(* ===================================================================== *)
(** ** Properties *)
(* ===================================================================== *)

(** Unfolding of the monad and of the primitive operations. *)
Ltac mrun :=
  cbv beta iota delta
      [bind ret throw try_catch gets modify respond Date_now db_call cast_id
       Vault_find Vault_find_or Vault_find_sort Vault_findById
       Vault_findByIdAndDelete fs_writeFile pre_save] in *;
  cbn [fst snd docs backups_dir files next_oid ticks db_calls fs_calls log
       set_docs set_backups_dir set_files set_next_oid set_ticks set_db_calls
       set_fs_calls emit status json] in *.

Lemma In_write_entry f d l : In (f, d) (write_entry f d l).
Proof.
  induction l as [|[f' d'] l IH]; cbn.
  - now left.
  - destruct (BackupName_eqb f' f); [now left | now right].
Qed.

Lemma find_some_In o l e : find (has_id o) l = Some e -> In e l /\ _id e = o.
Proof.
  intros H. apply find_some in H. destruct H as [H1 H2].
  split; [assumption|]. unfold has_id in H2. now apply Nat.eqb_eq in H2.
Qed.

(** *** Backups and delete *)

(** What [createBackup] leaves behind, by cases on the store read and on
    the file write. *)
Lemma createBackup_run env op d w :
  createBackup env op d w =
  if db_ok env (db_calls w) then
    if write_succeeds env w then
      (Ok (mkBackupName op (clock env (ticks w))),
       mkWorld (docs w) (backups_dir w)
               (write_entry (mkBackupName op (clock env (ticks w)))
                  (mkBackupData (clock env (S (ticks w))) op (Some d) (docs w)
                                (List.length (docs w)))
                  (files w))
               (next_oid w) (S (S (ticks w))) (S (db_calls w)) (S (fs_calls w))
               (log w ++ [EvWriteFile (mkBackupName op (clock env (ticks w)))]))
    else
      (Throw FsError,
       mkWorld (docs w) (backups_dir w) (files w) (next_oid w)
               (S (S (ticks w))) (S (db_calls w)) (S (fs_calls w)) (log w))
  else
    (Throw StoreError,
     mkWorld (docs w) (backups_dir w) (files w) (next_oid w)
             (S (ticks w)) (S (db_calls w)) (fs_calls w) (log w)).
Proof.
  unfold write_succeeds, createBackup. mrun.
  destruct (db_ok env (db_calls w)); mrun; [|reflexivity].
  destruct (backups_dir w && fs_ok env (fs_calls w)); reflexivity.
Qed.

(** C8.  A search request without [q] is answered 400 with the
    "q is required" error: the response carries no entry, no store query is
    issued and the state of the process is left as it was. *)
Theorem search_without_q_is_400 (env : Env) (w : World) :
  exists msg,
    handle env (GET_vault_search QAbsent) w
    = (mkResponse 400 (ErrorBody msg None), w)
    /\ response_entries (fst (handle env (GET_vault_search QAbsent) w)) = [].
Proof.
  eexists. split; reflexivity.
Qed.

(** C9 (as amended).  A DELETE whose id names no entry of the store writes
    no backup file and leaves the collection as it was; it is answered 404
    when the id is well formed and the lookup succeeds, and 500 when the id
    is malformed or the store fails. *)
Theorem delete_unresolved_no_backup (env : Env) (w : World) (id : route_id) :
  resolves id w = None ->
  docs (snd (handle env (DELETE_vault_id id) w)) = docs w
  /\ files (snd (handle env (DELETE_vault_id id) w)) = files w
  /\ log (snd (handle env (DELETE_vault_id id) w)) = log w
  /\ status (fst (handle env (DELETE_vault_id id) w))
     = match id with
       | ValidId _ => if db_ok env (db_calls w) then 404%nat else 500%nat
       | MalformedId _ => 500%nat
       end.
Proof.
  intros H. destruct id as [o|raw]; cbn in H |- *.
  - unfold delete_vault_id. mrun.
    destruct (db_ok env (db_calls w)); mrun.
    + rewrite H. cbn. auto.
    + cbn. auto.
  - cbn. auto.
Qed.

Lemma delete_unresolved_no_backup_witness :
  resolves (ValidId 7%nat) boot = None
  /\ status (fst (handle calm (DELETE_vault_id (ValidId 7%nat)) boot)) = 404%nat.
Proof.
  split; [reflexivity|].
  destruct (delete_unresolved_no_backup calm boot (ValidId 7%nat) eq_refl)
    as (_ & _ & _ & H).
  exact H.
Defined.

(** C9 as stated fails: the id [abc] names no entry, and the DELETE is
    answered 500 (the cast of the id throws), not 404. *)
Lemma delete_malformed_id_is_500 :
  resolves (MalformedId "abc") boot = None
  /\ status (fst (handle calm (DELETE_vault_id (MalformedId "abc")) boot))
     <> 404%nat.
Proof.
  split; [reflexivity|]. cbn. discriminate.
Qed.



(** *** Create *)

Lemma sort_by_perm leb l : Permutation (sort_by leb l) l.
Proof.
  assert (Hins : forall x l, Permutation (insert_by leb x l) (x :: l)).
  { intros x l0. induction l0 as [|y l0 IH]; cbn.
    - apply Permutation_refl.
    - destruct (leb x y).
      + apply Permutation_refl.
      + eapply perm_trans; [apply perm_skip, IH | apply perm_swap]. }
  induction l as [|x l IH]; cbn.
  - apply perm_nil.
  - eapply perm_trans; [apply Hins | apply perm_skip, IH].
Qed.


Ltac post_unfold := cbn [handle]; unfold post_vault, new_Vault, save; mrun.







(** *** The invariant of the collection *)

Lemma required_ok_nonempty v : required_ok v = true -> nonempty_string v.
Proof.
  destruct v; cbn; try discriminate. intros H. exists s. split; [reflexivity|].
  intros ->. discriminate.
Qed.

Lemma apply_set_nonempty old s :
  nonempty_string old -> set_required_ok s = true ->
  nonempty_string (apply_set old s).
Proof.
  destruct s as [v|]; cbn; intros Hold H; [now apply required_ok_nonempty | exact Hold].
Qed.

Lemma castString_not_array v : is_array (cast_or_unset (castString v)) = false.
Proof. destruct v; reflexivity. Qed.

Lemma cast_name_not_array v : is_array (cast_or_unset (cast_name v)) = false.
Proof. destruct v; reflexivity. Qed.

Lemma cast_tags_not_string v : is_string (cast_or_unset (cast_tags v)) = false.
Proof.
  destruct v; cbn; try reflexivity. destruct (cast_each items); reflexivity.
Qed.

Lemma apply_set_cast env (cast : jsval -> option jsval) (P : jsval -> bool) v s old :
  (forall x, P (cast_or_unset (cast x)) = false) ->
  P JNull = false -> P old = false ->
  cast_update_path env cast v = Some s ->
  P (apply_set old s) = false.
Proof.
  intros Hcast Hnull Hold. unfold cast_update_path.
  assert (Hgen : option_map Some (cast v) = Some s -> P (apply_set old s) = false).
  { specialize (Hcast v). destruct (cast v) as [x|]; cbn; [|discriminate].
    intros [= <-]. exact Hcast. }
  destruct v; try exact Hgen.
  destruct (strips_undefined env); intros [= <-]; assumption.
Qed.

Lemma store_ok_frame env w w' :
  docs w' = docs w -> (ticks w <= ticks w')%nat ->
  (next_oid w <= next_oid w')%nat -> store_ok env w -> store_ok env w'.
Proof.
  unfold store_ok. intros -> Ht Hn H.
  eapply Forall_impl; [|exact H]. cbn. intros e (He & Hp & Hi).
  split; [exact He|]. split; [|lia].
  intros k Hk. apply Hp. lia.
Qed.

Lemma store_ok_entries env w l :
  store_ok env w -> (forall e, In e l -> In e (docs w)) -> Forall entry_good l.
Proof.
  unfold store_ok. intros H Hl. apply Forall_forall. intros e He.
  rewrite Forall_forall in H. now apply H, Hl.
Qed.

Lemma Forall_update_first (P : VaultEntry -> Prop) o e' l :
  Forall P l -> P e' -> Forall P (update_first o (fun _ => e') l).
Proof.
  intros Hl He. induction Hl as [|x l Hx Hl IH]; cbn; [constructor|].
  destruct (has_id o x); constructor; auto.
Qed.

Lemma Forall_delete_first (P : VaultEntry -> Prop) o l :
  Forall P l -> Forall P (delete_first o l).
Proof.
  intros Hl. induction Hl as [|x l Hx Hl IH]; cbn; [constructor|].
  destruct (has_id o x); [exact Hl | constructor; auto].
Qed.

Ltac frame_tac := cbn; try reflexivity; try assumption; try lia.

Lemma createBackup_frame env op d w :
  docs (snd (createBackup env op d w)) = docs w
  /\ (ticks w <= ticks (snd (createBackup env op d w)))%nat
  /\ next_oid (snd (createBackup env op d w)) = next_oid w.
Proof.
  rewrite createBackup_run.
  destruct (db_ok env (db_calls w)); [destruct (write_succeeds env w)|];
    cbn; repeat split; lia.
Qed.

Section Invariant.

Variable env : Env.
Hypothesis Hclock : clock_monotone env.

Lemma search_preserved q : preserved env (GET_vault_search q).
Proof.
  intros w Hw. cbn [handle]. unfold get_vault_search, new_RegExp. mrun.
  destruct (qtruthy q); cbn; [|split; [exact Hw | constructor]].
  destruct (parse_atoms (qparam_toString q)) as [l|]; mrun.
  - destruct (db_ok env (db_calls w)); mrun; cbn.
    + split; [eapply store_ok_frame; [| | |exact Hw]; frame_tac|].
      eapply store_ok_entries; [exact Hw|]. intros e He.
      now apply filter_In in He.
    + split; [eapply store_ok_frame; [| | |exact Hw]; frame_tac | constructor].
  - destruct (regex_engine env (qparam_toString q)) as [m|]; mrun.
    + destruct (db_ok env (db_calls w)); mrun; cbn.
      * split; [eapply store_ok_frame; [| | |exact Hw]; frame_tac|].
        eapply store_ok_entries; [exact Hw|]. intros e He.
        now apply filter_In in He.
      * split; [eapply store_ok_frame; [| | |exact Hw]; frame_tac | constructor].
    + cbn. split; [exact Hw | constructor].
Qed.

Lemma sorted_query_preserved w sortBy sortOrder (k : list VaultEntry -> body) :
  (forall l, response_entries (mkResponse 200 (k l)) = l) ->
  store_ok env w ->
  forall msg,
  let m := try_catch
             (entries <- Vault_find_sort env sortBy sortOrder ;;
              ret (mkResponse 200 (k entries)))
             (fun err => ret (mkResponse 500 (ErrorBody msg (Some err)))) in
  store_ok env (snd (respond m w))
  /\ Forall entry_good (response_entries (fst (respond m w))).
Proof.
  intros Hk Hw msg m. subst m. mrun.
  destruct (db_ok env (db_calls w)); mrun.
  - split; [eapply store_ok_frame; [| | |exact Hw]; frame_tac|].
    rewrite Hk. eapply store_ok_entries; [exact Hw|]. intros e He.
    eapply Permutation_in; [apply sort_by_perm | exact He].
  - split; [eapply store_ok_frame; [| | |exact Hw]; frame_tac | constructor].
Qed.

Lemma sort_preserved b o : preserved env (GET_vault_sort b o).
Proof.
  intros w Hw. cbn [handle]. unfold get_vault_sort.
  destruct (sort_field b) as [sortBy|msg].
  2:{ cbn. split; [exact Hw | constructor]. }
  destruct (sort_order o) as [sortOrder|msg].
  2:{ cbn. split; [exact Hw | constructor]. }
  apply (sorted_query_preserved w sortBy sortOrder
           (fun l => SortBody sortBy
                       (if sortOrder =? 1 then "ascending" else "descending")
                       (List.length l) l)); [reflexivity | exact Hw].
Qed.

Lemma list_preserved : preserved env GET_vault.
Proof.
  intros w Hw. cbn [handle]. unfold get_vault.
  apply (sorted_query_preserved w "createdAt" (-1)
           (fun l => ListBody (List.length l) l)); [reflexivity | exact Hw].
Qed.

Lemma get_preserved id : preserved env (GET_vault_id id).
Proof.
  intros w Hw. cbn [handle]. unfold get_vault_id. mrun.
  destruct id as [o|raw]; mrun; [|cbn; split; [exact Hw | constructor]].
  destruct (db_ok env (db_calls w)); mrun.
  - destruct (find (has_id o) (docs w)) as [e|] eqn:Hf; cbn.
    + split; [eapply store_ok_frame; [| | |exact Hw]; frame_tac|].
      eapply store_ok_entries; [exact Hw|]. intros x [<-|[]].
      now apply find_some_In in Hf.
    + split; [eapply store_ok_frame; [| | |exact Hw]; frame_tac | constructor].
  - split; [eapply store_ok_frame; [| | |exact Hw]; frame_tac | constructor].
Qed.

Lemma delete_preserved id : preserved env (DELETE_vault_id id).
Proof.
  intros w Hw. cbn [handle]. unfold delete_vault_id. mrun.
  destruct id as [o|raw]; mrun; [|cbn; split; [exact Hw | constructor]].
  destruct (db_ok env (db_calls w)); mrun.
  2:{ split; [eapply store_ok_frame; [| | |exact Hw]; frame_tac | constructor]. }
  destruct (find (has_id o) (docs w)) as [e|] eqn:Hf; cbn.
  2:{ split; [eapply store_ok_frame; [| | |exact Hw]; frame_tac | constructor]. }
  set (w1 := set_db_calls (S (db_calls w)) w).
  assert (Hw1 : store_ok env w1)
    by (eapply store_ok_frame; [| | |exact Hw]; frame_tac).
  destruct (createBackup_frame env "DELETE" (name e, _id e) w1) as (Hd & Ht & Hno).
  destruct (createBackup env "DELETE" (name e, _id e) w1) as [[f|err] w2];
    cbn in Hd, Ht, Hno |- *.
  2:{ split; [eapply store_ok_frame; [| | |exact Hw1]; frame_tac | constructor]. }
  assert (Hw2 : store_ok env w2)
    by (eapply store_ok_frame; [| | |exact Hw1]; frame_tac).
  destruct (db_ok env (db_calls w2)); mrun.
  2:{ split; [eapply store_ok_frame; [| | |exact Hw2]; frame_tac | constructor]. }
  assert (He : entry_good e).
  { apply find_some_In in Hf. destruct Hf as [Hin _].
    unfold store_ok in Hw. rewrite Forall_forall in Hw. now apply Hw. }
  destruct (find (has_id o) (docs w2)) as [e2|]; cbn.
  - split; [|constructor; [exact He | constructor]].
    unfold store_ok in Hw2 |- *. cbn. now apply Forall_delete_first.
  - split; [|constructor; [exact He | constructor]].
    eapply store_ok_frame; [| | |exact Hw2]; frame_tac.
Qed.

Lemma post_preserved b : preserved env (POST_vault b).
Proof.
  intros w Hw. post_unfold.
  destruct (negb (truthy (body_name b)) || negb (truthy (body_content b)));
    cbn; [split; [exact Hw | constructor]|].
  destruct (_ || _ || negb _ || negb _) eqn:Hval; mrun.
  { split; [eapply store_ok_frame; [| | |exact Hw]; frame_tac | constructor]. }
  apply orb_false_elim in Hval. destruct Hval as [Hval Hc].
  apply orb_false_elim in Hval. destruct Hval as [_ Hn].
  apply negb_false_iff, required_ok_nonempty in Hn, Hc.
  assert (Hty : forall i c u,
            entry_typed
              (mkEntry i (cast_or_unset (cast_name (body_name b)))
                 (cast_or_unset (cast_content (body_content b)))
                 (cast_or_unset
                    (cast_category (js_or (body_category b) (JStr "general"))))
                 (cast_or_unset (cast_tags (js_or (body_tags b) (JArr []))))
                 c u)).
  { intros i c u. unfold entry_typed. cbn.
    auto using cast_name_not_array, castString_not_array, cast_tags_not_string. }
  destruct (db_ok env (db_calls w)); mrun.
  2:{ split; [eapply store_ok_frame; [| | |exact Hw]; frame_tac | constructor]. }
  match goal with
  | |- context [createBackup env ?op ?d ?w0] =>
      set (w1 := w0);
      destruct (createBackup_frame env op d w1) as (Hd & Ht & Hno);
      destruct (createBackup env op d w1) as [[f|err] w2]
  end; cbn in Hd, Ht, Hno |- *.
  all: match type of Hd with
       | _ = (_ ++ [?e])%list =>
           assert (He : entry_good e)
             by (split; [split; [exact Hn | split; [exact Hc | cbn; apply Hclock; lia]]
                        | apply Hty]);
           assert (Hw2 : store_ok env w2)
       end.
  1,3: unfold store_ok; rewrite Hd; apply Forall_app; split;
    [ eapply Forall_impl; [|exact Hw]; cbn; intros x (Hx & Hp & Hi); split;
        [exact Hx | split; [intros k Hk; apply Hp; lia | lia]]
    | constructor; [|constructor]; split;
        [exact He | split; [intros k Hk; cbn; apply Hclock; lia | cbn; lia]] ].
  - split; [exact Hw2 | constructor; [exact He | constructor]].
  - split; [exact Hw2 | constructor].
Qed.

Lemma put_preserved id b : preserved env (PUT_vault_id id b).
Proof.
  intros w Hw. cbn [handle]. unfold put_vault_id, Vault_findByIdAndUpdate. mrun.
  assert (Hfr : forall w', docs w' = docs w -> (ticks w <= ticks w')%nat ->
                           (next_oid w <= next_oid w')%nat -> store_ok env w')
    by (intros w' H1 H2 H3; eapply store_ok_frame; eauto).
  destruct id as [o|raw]; mrun; [|cbn; split; [apply Hfr; cbn; auto | constructor]].
  cbn [upd_name upd_content upd_category upd_tags upd_updatedAt].
  destruct (cast_update_path env cast_name (body_name b)) as [sn|] eqn:Esn;
    [|cbn; split; [apply Hfr; cbn; auto | constructor]].
  destruct (cast_update_path env cast_content (body_content b)) as [sc|] eqn:Esc;
    [|cbn; split; [apply Hfr; cbn; auto | constructor]].
  destruct (cast_update_path env cast_category (body_category b)) as [scat|]
    eqn:Escat;
    [|cbn; split; [apply Hfr; cbn; auto | constructor]].
  destruct (cast_update_path env cast_tags (body_tags b)) as [st|] eqn:Est;
    [|cbn; split; [apply Hfr; cbn; auto | constructor]].
  destruct (set_required_ok sn && set_required_ok sc) eqn:Hreq;
    [|cbn; split; [apply Hfr; cbn; auto | constructor]].
  apply andb_prop in Hreq. destruct Hreq as [Hn Hc]. mrun.
  destruct (db_ok env (db_calls w)); mrun;
    [|cbn; split; [apply Hfr; cbn; auto | constructor]].
  destruct (find (has_id o) (docs w)) as [e|] eqn:Hf; mrun;
    [|cbn; split; [apply Hfr; cbn; auto | constructor]].
  apply find_some_In in Hf. destruct Hf as [Hin _].
  pose proof Hw as Hall. unfold store_ok in Hall. rewrite Forall_forall in Hall.
  destruct (Hall e Hin)
    as ([(Hen & Hec & Hcu) (Ht1 & Ht2 & Ht3 & Ht4)] & Hpast & Hlt).
  set (e' := apply_update sn sc scat st (clock env (ticks w)) e).
  assert (He' : entry_good e').
  { split.
    - split; [now apply apply_set_nonempty|].
      split; [now apply apply_set_nonempty|]. cbn.
      specialize (Hpast (ticks w) (Nat.le_refl _)). lia.
    - unfold entry_typed. cbn. repeat split.
      + eapply apply_set_cast; [apply cast_name_not_array| | |exact Esn]; auto.
      + eapply apply_set_cast; [apply castString_not_array| | |exact Esc]; auto.
      + eapply apply_set_cast; [apply castString_not_array| | |exact Escat]; auto.
      + eapply apply_set_cast; [apply cast_tags_not_string| | |exact Est]; auto. }
  match goal with
  | |- context [createBackup env ?op ?d ?w0] =>
      set (w1 := w0);
      destruct (createBackup_frame env op d w1) as (Hd & Ht & Hno);
      destruct (createBackup env op d w1) as [[f|err] w2]
  end; cbn in Hd, Ht, Hno |- *.
  all: assert (Hw2 : store_ok env w2)
    by (unfold store_ok; rewrite Hd; apply Forall_update_first;
        [ eapply Forall_impl; [|exact Hw]; cbn; intros x (Hx & Hp & Hi); split;
            [exact Hx | split; [intros k Hk; apply Hp; lia | lia]]
        | split; [exact He' | split; [intros k Hk; cbn; apply Hclock; lia
                                    | cbn; lia]] ]).
  - split; [exact Hw2 | constructor; [exact He' | constructor]].
  - split; [exact Hw2 | constructor].
Qed.

Lemma handle_preserved r : preserved env r.
Proof.
  destruct r.
  - apply search_preserved.
  - apply sort_preserved.
  - apply post_preserved.
  - apply list_preserved.
  - apply get_preserved.
  - apply put_preserved.
  - apply delete_preserved.
Qed.

Lemma serve_preserved rs :
  forall w, store_ok env w ->
    store_ok env (snd (serve env rs w))
    /\ Forall (fun r => Forall entry_good (response_entries r))
              (fst (serve env rs w)).
Proof.
  induction rs as [|r rs IH]; intros w Hw; cbn.
  - split; [exact Hw | constructor].
  - destruct (handle_preserved r w Hw) as [H1 H2].
    destruct (handle env r w) as [resp w1]. cbn in H1, H2.
    destruct (IH w1 H1) as [H3 H4].
    destruct (serve env rs w1) as [resps w2]. cbn in H3, H4 |- *.
    split; [exact H3 | constructor; assumption].
Qed.

End Invariant.


(** The invariant holds in every state the service reaches. *)
Lemma reachable_store_ok (env : Env) (rs : list Request) :
  clock_monotone env ->
  store_ok env (snd (serve env rs (snd (startServer env boot))))
  /\ Forall (fun r => Forall entry_good (response_entries r))
            (fst (serve env rs (snd (startServer env boot)))).
Proof.
  intros Hclock. apply (serve_preserved env Hclock).
  unfold startServer, ensureBackupsDir, fs_mkdir, app_listen, store_ok. mrun.
  destruct (mkdir_ok env), (listen_ok env); cbn; constructor.
Qed.



(** *** Update *)


(** In every state the service reaches under a clock that does not go
    back: no entry has been written after the next reading of the clock, the
    ObjectId generated next names no entry, and the entries have the shape
    of the schema. *)
Lemma reachable_updatedAt_in_past (env : Env) (rs : list Request) (e : VaultEntry) :
  clock_monotone env ->
  let w := snd (serve env rs (snd (startServer env boot))) in
  In e (docs w) -> updatedAt e <= clock env (ticks w).
Proof.
  intros Hclock w Hin.
  destruct (reachable_store_ok env rs Hclock) as [H1 _].
  unfold store_ok in H1. rewrite Forall_forall in H1.
  destruct (H1 e Hin) as (_ & Hp & _). apply Hp. apply Nat.le_refl.
Qed.

Lemma reachable_ids_fresh (env : Env) (rs : list Request) :
  clock_monotone env ->
  let w := snd (serve env rs (snd (startServer env boot))) in
  Forall (fun x => _id x <> next_oid w) (docs w).
Proof.
  intros Hclock w.
  destruct (reachable_store_ok env rs Hclock) as [H1 _].
  eapply Forall_impl; [|exact H1]. cbn. intros x (_ & _ & Hlt) Heq.
  unfold w in Heq. rewrite Heq in Hlt. apply (Nat.lt_irrefl _ Hlt).
Qed.

Lemma reachable_typed (env : Env) (rs : list Request) :
  clock_monotone env ->
  Forall entry_typed (docs (snd (serve env rs (snd (startServer env boot))))).
Proof.
  intros Hclock.
  destruct (reachable_store_ok env rs Hclock) as [H1 _].
  eapply Forall_impl; [|exact H1]. cbn. unfold entry_good. tauto.
Qed.





(** A body that the update validators refuse (an empty [name]) is answered
    500 and leaves the entry, [updatedAt] included, as it was. *)
Lemma update_refused_leaves_entry :
  let req := PUT_vault_id (ValidId 0%nat)
               (mkReqBody (JStr "") JUndefined JUndefined JUndefined) in
  status (fst (handle calm req one_entry)) = 500%nat
  /\ docs (snd (handle calm req one_entry)) = docs one_entry.
Proof.
  split; vm_compute; reflexivity.
Qed.

(** *** Search *)















(** *** Sort *)

Lemma bson_leb_total a b : bson_leb a b = false -> bson_leb b a = true.
Proof.
  destruct a, b; cbn; try discriminate; try reflexivity.
  - destruct b, b0; cbn; congruence.
  - intros H. apply Z.leb_gt in H. apply Z.leb_le. lia.
  - intros H. destruct (String.leb_total s s0) as [E|E]; congruence.
Qed.

Lemma field_leb_total sortBy a b :
  field_leb sortBy a b = false -> field_leb sortBy b a = true.
Proof.
  unfold field_leb. destruct (sortBy =? "name")%string.
  - apply bson_leb_total.
  - destruct (sortBy =? "createdAt")%string; [|discriminate].
    intros H. apply Z.leb_gt in H. apply Z.leb_le. lia.
Qed.

Lemma sort_leb_total sortBy sortOrder a b :
  sort_leb sortBy sortOrder a b = false -> sort_leb sortBy sortOrder b a = true.
Proof.
  unfold sort_leb. destruct (sortOrder =? 1); apply field_leb_total.
Qed.

Section InsertionSort.

Variable leb : VaultEntry -> VaultEntry -> bool.
Hypothesis leb_total : forall a b, leb a b = false -> leb b a = true.

Lemma insert_by_HdRel x y l :
  ordered_by leb y x -> HdRel (ordered_by leb) y l -> HdRel (ordered_by leb) y (insert_by leb x l).
Proof.
  intros Hyx Hl. destruct l as [|z l]; cbn.
  - now constructor.
  - destruct (leb x z); constructor; [exact Hyx|].
    now inversion Hl.
Qed.

Lemma insert_by_sorted x l : Sorted (ordered_by leb) l -> Sorted (ordered_by leb) (insert_by leb x l).
Proof.
  induction 1 as [|y l Hl IH Hhd]; cbn.
  - repeat constructor.
  - destruct (leb x y) eqn:E.
    + constructor; [now constructor | now constructor].
    + constructor; [exact IH|].
      apply insert_by_HdRel; [now apply leb_total | exact Hhd].
Qed.

Lemma sort_by_sorted l : Sorted (ordered_by leb) (sort_by leb l).
Proof.
  induction l as [|x l IH]; cbn; [constructor | now apply insert_by_sorted].
Qed.

End InsertionSort.

Lemma sort_leb_precedes path direction a b :
  path = "name"%string \/ path = "createdAt"%string ->
  sort_leb path direction a b = true -> precedes path direction a b.
Proof.
  unfold sort_leb, field_leb, precedes.
  intros [-> | ->]; cbn; destruct (direction =? 1); auto; apply Z.leb_le.
Qed.

Lemma sort_field_cases by_ :
  (invalid_by by_ /\ sort_field by_ = inr invalid_sort_field)
  \/ (~ invalid_by by_ /\ sort_field by_ = inl (selected_path by_)).
Proof.
  unfold invalid_by, given, sort_field, selected_path.
  destruct by_ as [|s|l|]; cbn.
  - right. split; [intros [[H _] _]; congruence | reflexivity].
  - destruct (String.eqb_spec s "") as [->|Hs]; cbn.
    + right. split; [intros [[_ H] _]; congruence | reflexivity].
    + destruct (String.eqb_spec s "name") as [->|Hn].
      * right. split; [intros (_ & H & _); congruence | reflexivity].
      * destruct (String.eqb_spec s "date") as [->|Hd].
        -- right. split; [intros (_ & _ & H); congruence | reflexivity].
        -- left. split; [|reflexivity].
           repeat split; intros [= E]; congruence.
  - left. split; [|reflexivity]. repeat split; discriminate.
  - left. split; [|reflexivity]. repeat split; discriminate.
Qed.

Lemma sort_order_cases order :
  (invalid_order order /\ sort_order order = inr invalid_sort_order)
  \/ (~ invalid_order order /\ sort_order order = inl (selected_direction order)).
Proof.
  unfold invalid_order, given, sort_order, selected_direction.
  destruct order as [|s|l|]; cbn.
  - right. split; [intros [[H _] _]; congruence | reflexivity].
  - destruct (String.eqb_spec s "") as [->|Hs]; cbn.
    + right. split; [intros [[_ H] _]; congruence | reflexivity].
    + destruct (String.eqb_spec s "asc") as [->|Hn].
      * right. split; [intros (_ & H & _); congruence | reflexivity].
      * destruct (String.eqb_spec s "desc") as [->|Hd].
        -- right. split; [intros (_ & _ & H); congruence | reflexivity].
        -- left. split; [|reflexivity].
           repeat split; intros [= E]; congruence.
  - left. split; [|reflexivity]. repeat split; discriminate.
  - left. split; [|reflexivity]. repeat split; discriminate.
Qed.

(** C7 (as amended).  The sort route answers 400 exactly when [by] is given
    (present and not the empty string) and is neither [name] nor [date], or
    [order] is given and is neither [asc] nor [desc].  Otherwise, the store
    answering, it answers 200 with all the entries of the collection, sorted
    on the selected path ([date] and the default being [createdAt]) in the
    selected direction (the default being descending). *)
Theorem sort_contract (env : Env) (w : World) (by_ order : qparam) :
  let r := fst (handle env (GET_vault_sort by_ order) w) in
  (status r = 400%nat <-> invalid_by by_ \/ invalid_order order)
  /\ (~ (invalid_by by_ \/ invalid_order order) ->
      db_ok env (db_calls w) = true ->
      exists label entries,
        r = mkResponse 200
              (SortBody (selected_path by_) label (List.length entries) entries)
        /\ Permutation entries (docs w)
        /\ Sorted (precedes (selected_path by_) (selected_direction order))
                  entries).
Proof.
  intros r. subst r. cbn [handle]. unfold get_vault_sort.
  destruct (sort_field_cases by_) as [[Hb ->]|[Hb ->]].
  { cbn. split; [tauto|]. intros H. tauto. }
  destruct (sort_order_cases order) as [[Ho ->]|[Ho ->]].
  { cbn. split; [tauto|]. intros H. tauto. }
  mrun. destruct (db_ok env (db_calls w)); mrun.
  - split; [split; [discriminate | tauto]|].
    intros _ _. do 2 eexists. split; [reflexivity|].
    split; [apply sort_by_perm|].
    eapply Sorted_ind with (P := fun l => Sorted _ l);
      [constructor | | apply sort_by_sorted, sort_leb_total].
    intros a l _ IH Hhd. constructor; [exact IH|].
    destruct Hhd; constructor.
    apply sort_leb_precedes; [|assumption].
    unfold selected_path. destruct (strict_eq_str by_ "name"); auto.
  - split; [split; [discriminate | tauto]|].
    intros _ H. discriminate.
Qed.

Lemma sort_contract_witness :
  exists label entries,
    fst (handle calm (GET_vault_sort (QStr "name") (QStr "asc")) one_entry)
    = mkResponse 200 (SortBody "name" label (List.length entries) entries)
    /\ Permutation entries (docs one_entry).
Proof.
  assert (Hv : ~ (invalid_by (QStr "name") \/ invalid_order (QStr "asc"))).
  { intros [(_ & H & _) | (_ & H & _)]; now apply H. }
  destruct (sort_contract calm one_entry (QStr "name") (QStr "asc")) as [_ H].
  destruct (H Hv eq_refl) as (label & entries & Hr & Hp & _).
  exists label, entries. split; [exact Hr | exact Hp].
Defined.

(** C7 as stated fails: [?by=] carries a [by] that is present and is
    neither [name] nor [date], and the request is answered 200. *)
Lemma sort_empty_by_is_200 :
  QStr "" <> QAbsent /\ QStr "" <> QStr "name" /\ QStr "" <> QStr "date"
  /\ status (fst (handle calm (GET_vault_sort (QStr "") QAbsent) one_entry))
     = 200%nat.
Proof.
  repeat split; try discriminate.
Qed.

(** *** Startup *)

(** C3 (the code at the failing input).  When [fs.mkdir] fails at startup,
    [ensureBackupsDir] swallows the error: [startServer] goes on to
    [app.listen] and the process is listening, without a backups directory,
    instead of leaving through [process.exit(1)]. *)
Theorem startServer_ignores_mkdir_failure (env : Env) (w : World) :
  mkdir_ok env = false ->
  listen_ok env = true ->
  startServer env w = (Listening, w).
Proof.
  intros Hm Hl. unfold startServer, ensureBackupsDir, fs_mkdir, app_listen. mrun.
  rewrite Hm, Hl. reflexivity.
Qed.

Lemma startServer_ignores_mkdir_failure_witness :
  startServer no_mkdir boot = (Listening, boot)
  /\ backups_dir (snd (startServer no_mkdir boot)) = false.
Proof.
  split; [|reflexivity].
  apply (startServer_ignores_mkdir_failure no_mkdir boot); reflexivity.
Defined.

(** The missing directory is not made up for later: every backup fails,
    and the directory is still missing afterwards. *)
Lemma createBackup_without_directory env op d w :
  backups_dir w = false ->
  exists err,
    fst (createBackup env op d w) = Throw err
    /\ backups_dir (snd (createBackup env op d w)) = false
    /\ files (snd (createBackup env op d w)) = files w.
Proof.
  intros H. rewrite createBackup_run. unfold write_succeeds. rewrite H. cbn.
  destruct (db_ok env (db_calls w)); cbn; eauto.
Qed.

(* ===================================================================== *)
(** ** Further properties of the routes *)
(* ===================================================================== *)

Ltac handler_cases :=
  repeat first
    [ progress mrun
    | rewrite createBackup_run
    | match goal with
      | |- context [if ?b then _ else _] => destruct b eqn:?
      | |- context [match ?x with Some _ => _ | None => _ end] => destruct x eqn:?
      | |- context [match ?x with inl _ => _ | inr _ => _ end] => destruct x eqn:?
      | |- context [match ?x with ValidId _ => _ | MalformedId _ => _ end] => destruct x
      end ].

Ltac unfold_handlers :=
  cbn [handle];
  unfold get_vault_search, get_vault_sort, post_vault, get_vault, get_vault_id,
    put_vault_id, delete_vault_id, new_RegExp, new_Vault, save,
    Vault_findByIdAndUpdate, write_succeeds in *.

(** The response and the state after a request, named once. *)
Ltac name_handle :=
  match goal with
  | |- context [handle ?env ?r ?w] =>
      let p := fresh "p" in
      let Hp := fresh "Hp" in
      remember (handle env r w) as p eqn:Hp; revert Hp
  end.

Ltac by_cases_on_handler :=
  name_handle; unfold_handlers; handler_cases; intros ->;
  cbn [fst snd status json docs files log next_oid backups_dir fs_calls
       db_calls ticks response_entries set_docs set_backups_dir set_files
       set_next_oid set_ticks set_db_calls set_fs_calls emit].


Lemma map_id_update_first o e' l :
  _id e' = o -> map _id (update_first o (fun _ => e') l) = map _id l.
Proof.
  intros He. induction l as [|x l IH]; cbn; [reflexivity|].
  destruct (has_id o x) eqn:Hx; cbn.
  - unfold has_id in Hx. apply Nat.eqb_eq in Hx. now rewrite He, Hx.
  - now rewrite IH.
Qed.





Lemma serve_cons env r rs w :
  serve env (r :: rs) w
  = (fst (handle env r w) :: fst (serve env rs (snd (handle env r w))),
     snd (serve env rs (snd (handle env r w)))).
Proof.
  cbn. destruct (handle env r w) as [resp w1]. cbn.
  destruct (serve env rs w1) as [resps w2]. reflexivity.
Qed.


Lemma In_filter_sub {A} (f : A -> bool) l x : In x (filter f l) -> In x l.
Proof. intros H. now apply filter_In in H. Qed.

Lemma In_sort_by leb l x : In x (sort_by leb l) -> In x l.
Proof. apply Permutation_in, sort_by_perm. Qed.

(** X2.  The four GET routes of the vault (search, sort, list-all and
    get-by-id) only read: collection, backup files, write log, ObjectId
    generator and backups directory are left as they were, no file write is
    issued, and every entry of the response is an entry of the collection. *)
Theorem read_routes_change_nothing (env : Env) (r : Request) (w : World) :
  is_read r = true ->
  let w' := snd (handle env r w) in
  docs w' = docs w /\ files w' = files w /\ log w' = log w
  /\ next_oid w' = next_oid w /\ backups_dir w' = backups_dir w
  /\ fs_calls w' = fs_calls w
  /\ forall e, In e (response_entries (fst (handle env r w))) -> In e (docs w).
Proof.
  intros Hr w'. subst w'. destruct r; try discriminate.
  all: by_cases_on_handler.
  all: cbn; repeat split; try tauto.
  all: try (intros e He; first [ now apply In_filter_sub in He
                               | now apply In_sort_by in He ]).
  intros e [<-|[]].
  match goal with H : find _ _ = Some _ |- _ => now apply find_some_In in H end.
Qed.


Lemma write_entry_names f d l x :
  In x (map fst l) -> In x (map fst (write_entry f d l)).
Proof.
  induction l as [|[f' d'] l IH]; cbn; [tauto|].
  destruct (BackupName_eqb f' f) eqn:E; cbn.
  - intros [<-|H]; [|now right]. left.
    unfold BackupName_eqb in E. apply andb_prop in E. destruct E as [E1 E2].
    apply String.eqb_eq in E1. apply Z.eqb_eq in E2.
    destruct f', f; cbn in *; congruence.
  - intros [<-|H]; [now left | right; now apply IH].
Qed.

Lemma write_entry_names_inv f d l x :
  In x (map fst (write_entry f d l)) -> In x (map fst l) \/ x = f.
Proof.
  induction l as [|[f' d'] l IH]; cbn.
  - intros [<-|[]]. now right.
  - destruct (BackupName_eqb f' f) eqn:E; cbn.
    + intros [<-|H]; [now right | left; now right].
    + intros [<-|H]; [left; now left|].
      destruct (IH H) as [H'|H']; [left; now right | now right].
Qed.

Lemma write_entry_nodup f d l :
  NoDup (map fst l) -> NoDup (map fst (write_entry f d l)).
Proof.
  induction l as [|[f' d'] l IH]; cbn; intros Hnd.
  - constructor; [intros [] | constructor].
  - inversion Hnd as [|? ? Hn Hl]; subst.
    destruct (BackupName_eqb f' f) eqn:E; cbn.
    + constructor; [|exact Hl]. intros Hin. apply Hn.
      unfold BackupName_eqb in E. apply andb_prop in E. destruct E as [E1 E2].
      apply String.eqb_eq in E1. apply Z.eqb_eq in E2.
      destruct f', f; cbn in *; congruence.
    + constructor; [|now apply IH]. intros Hin.
      destruct (write_entry_names_inv _ _ _ _ Hin) as [H|H]; [now apply Hn|].
      subst f'. unfold BackupName_eqb in E.
      now rewrite String.eqb_refl, Z.eqb_refl in E.
Qed.

Lemma write_entry_length f d l :
  (List.length l <= List.length (write_entry f d l))%nat.
Proof.
  induction l as [|[f' d'] l IH]; cbn; [lia|].
  destruct (BackupName_eqb f' f); cbn; lia.
Qed.

Lemma handle_backup_names env r w :
  (forall x, In x (backup_names w) -> In x (backup_names (snd (handle env r w))))
  /\ (NoDup (backup_names w) -> NoDup (backup_names (snd (handle env r w))))
  /\ (List.length (files w) <= List.length (files (snd (handle env r w))))%nat.
Proof.
  unfold backup_names. destruct r.
  all: by_cases_on_handler.
  all: split; [intros x; try tauto; apply write_entry_names|].
  all: split; [try tauto; apply write_entry_nodup | try lia; apply write_entry_length].
Qed.

(** X4.  No request, and so no sequence of requests, removes a backup file:
    the names of the files of the backups directory are kept, they stay
    pairwise distinct, and the number of files does not decrease. *)
Theorem backups_never_removed (env : Env) (rs : list Request) (w : World) :
  let w' := snd (serve env rs w) in
  (forall f, In f (backup_names w) -> In f (backup_names w'))
  /\ (NoDup (backup_names w) -> NoDup (backup_names w'))
  /\ (List.length (files w) <= List.length (files w'))%nat.
Proof.
  revert w. induction rs as [|r rs IH]; intros w; cbv zeta.
  - cbn. auto.
  - rewrite serve_cons. cbn [snd].
    destruct (handle_backup_names env r w) as (H1 & H2 & H3).
    destruct (IH (snd (handle env r w))) as (I1 & I2 & I3).
    split; [auto|]. split; [auto | lia].
Qed.

(** *** Create *)






(** *** Update *)

Lemma In_update_first_other o e' l x :
  _id e' = o -> _id x <> o ->
  In x (update_first o (fun _ => e') l) <-> In x l.
Proof.
  intros He Hx. induction l as [|y l IH]; cbn; [tauto|].
  destruct (has_id o y) eqn:Hy; cbn.
  - unfold has_id in Hy. apply Nat.eqb_eq in Hy.
    split; intros [H|H]; try tauto; subst; congruence.
  - rewrite IH. tauto.
Qed.

Lemma In_update_first_new o e e' l :
  find (has_id o) l = Some e -> In e' (update_first o (fun _ => e') l).
Proof.
  induction l as [|y l IH]; cbn; [discriminate|].
  destruct (has_id o y); cbn; [now left | right; now apply IH].
Qed.

Lemma length_update_first o f l :
  List.length (update_first o f l) = List.length l.
Proof.
  induction l as [|y l IH]; cbn; [reflexivity|].
  destruct (has_id o y); cbn; congruence.
Qed.



(** X8.  An update of an existing id never touches another entry: the
    entries with a different [_id] are the same before and after, and the
    identifiers of the collection keep their order.  When it is answered 200
    the response carries the updated entry, which is in the collection, and
    the store update is followed by one backup file, labelled UPDATE, whose
    snapshot is the collection after the update. *)
Theorem update_effects (env : Env) (w : World) (o : ObjectId) (b : ReqBody)
        (e : VaultEntry) :
  find (has_id o) (docs w) = Some e ->
  let resp := fst (handle env (PUT_vault_id (ValidId o) b) w) in
  let w' := snd (handle env (PUT_vault_id (ValidId o) b) w) in
  (forall x, _id x <> o -> In x (docs w') <-> In x (docs w))
  /\ ids w' = ids w
  /\ (status resp = 200%nat ->
      exists e' f d,
        resp = mkResponse 200 (MessageBody "Vault entry updated successfully" e')
        /\ In e' (docs w')
        /\ log w' = (log w ++ [EvUpdate o; EvWriteFile f])%list
        /\ In (f, d) (files w')
        /\ bn_operation f = "UPDATE"%string
        /\ operation d = "UPDATE"%string
        /\ trigger d = Some (body_name b, o)
        /\ data d = docs w'
        /\ In e' (data d)).
Proof.
  intros Hf resp w'. subst resp w'. unfold ids.
  pose proof (find_some_In _ _ _ Hf) as [_ Hid].
  name_handle. unfold_handlers. mrun.
  cbn [upd_name upd_content upd_category upd_tags upd_updatedAt].
  assert (Hsame : forall r w0, docs w0 = docs w -> status r = 500%nat ->
            (forall x, _id x <> o -> In x (docs w0) <-> In x (docs w))
            /\ map _id (docs w0) = map _id (docs w)
            /\ (status r = 200%nat ->
                exists e' f d,
                  r = mkResponse 200
                        (MessageBody "Vault entry updated successfully" e')
                  /\ In e' (docs w0)
                  /\ log w0 = (log w ++ [EvUpdate o; EvWriteFile f])%list
                  /\ In (f, d) (files w0)
                  /\ bn_operation f = "UPDATE"%string
                  /\ operation d = "UPDATE"%string
                  /\ trigger d = Some (body_name b, o)
                  /\ data d = docs w0
                  /\ In e' (data d))).
  { intros r w0 Hd Hs. rewrite Hd, Hs. repeat split; auto; discriminate. }
  destruct (cast_update_path env cast_name (body_name b)) as [sn|];
    [|intros ->; apply Hsame; reflexivity].
  destruct (cast_update_path env cast_content (body_content b)) as [sc|];
    [|intros ->; apply Hsame; reflexivity].
  destruct (cast_update_path env cast_category (body_category b)) as [scat|];
    [|intros ->; apply Hsame; reflexivity].
  destruct (cast_update_path env cast_tags (body_tags b)) as [st|];
    [|intros ->; apply Hsame; reflexivity].
  destruct (set_required_ok sn && set_required_ok sc); mrun;
    [|intros ->; apply Hsame; reflexivity].
  destruct (db_ok env (db_calls w)); mrun;
    [|intros ->; apply Hsame; reflexivity].
  rewrite Hf. mrun. rewrite createBackup_run. unfold write_succeeds. mrun.
  set (e' := apply_update sn sc scat st (clock env (ticks w)) e).
  assert (He' : _id e' = o) by exact Hid.
  destruct (db_ok env (S (db_calls w))); mrun;
    [destruct (backups_dir w && fs_ok env (fs_calls w)); mrun|];
    intros ->; cbn [fst snd docs log files status].
  all: split; [intros x Hx; now apply In_update_first_other|].
  all: split; [now apply map_id_update_first|].
  2,3: discriminate.
  intros _. exists e'. do 2 eexists. split; [reflexivity|].
  split; [eapply In_update_first_new; exact Hf|].
  split; [rewrite <- app_assoc; reflexivity|].
  split; [apply In_write_entry|]. cbn.
  split; [reflexivity|]. split; [reflexivity|].
  split; [now rewrite Hid|]. split; [reflexivity|].
  eapply In_update_first_new; exact Hf.
Qed.

Lemma update_effects_witness :
  ids (snd (handle calm (PUT_vault_id (ValidId 0%nat)
                           (mkReqBody (JStr "B") (JStr "y") JNull JNull))
                   one_entry)) = [0%nat].
Proof.
  destruct (update_effects calm one_entry 0%nat
              (mkReqBody (JStr "B") (JStr "y") JNull JNull) sample_entry eq_refl)
    as (_ & H & _).
  exact H.
Defined.

(** *** List and sort *)

Lemma Sorted_impl {A} (R R' : A -> A -> Prop) l :
  (forall a b, R a b -> R' a b) -> Sorted R l -> Sorted R' l.
Proof.
  intros HR. induction 1 as [|a l Hl IH Hhd]; constructor; [exact IH|].
  destruct Hhd; constructor. now apply HR.
Qed.

Lemma newest_first_sorted l :
  StronglySorted newest_first (sort_by (sort_leb "createdAt" (-1)) l).
Proof.
  apply Sorted_StronglySorted.
  - intros a b c Hab Hbc. unfold newest_first in *. lia.
  - apply Sorted_impl with (R := ordered_by (sort_leb "createdAt" (-1))).
    + intros a b H. unfold ordered_by, sort_leb, field_leb in H. cbn in H.
      now apply Z.leb_le in H.
    + apply sort_by_sorted, sort_leb_total.
Qed.

(** X9.  List-all answers 200 with all the entries of the collection, each
    once, ordered by [createdAt] from the newest to the oldest, and with
    their number as count; when the store fails it answers 500. *)
Theorem list_all_newest_first (env : Env) (w : World) :
  (db_ok env (db_calls w) = true ->
   exists entries,
     fst (handle env GET_vault w)
     = mkResponse 200 (ListBody (List.length entries) entries)
     /\ Permutation entries (docs w)
     /\ List.length entries = List.length (docs w)
     /\ StronglySorted newest_first entries)
  /\ (db_ok env (db_calls w) = false ->
      fst (handle env GET_vault w)
      = mkResponse 500
          (ErrorBody "Failed to fetch vault entries" (Some StoreError))).
Proof.
  cbn [handle]. unfold get_vault. mrun.
  destruct (db_ok env (db_calls w)); mrun; (split; [|discriminate || reflexivity]).
  - intros _. eexists. split; [reflexivity|].
    split; [apply sort_by_perm|].
    split; [apply Permutation_length, sort_by_perm | apply newest_first_sorted].
  - discriminate.
Qed.

Lemma list_all_newest_first_witness :
  exists entries,
    fst (handle calm GET_vault one_entry)
    = mkResponse 200 (ListBody (List.length entries) entries)
    /\ Permutation entries (docs one_entry).
Proof.
  destruct (list_all_newest_first calm one_entry) as [H _].
  destruct (H eq_refl) as (entries & H1 & H2 & _).
  exists entries. split; assumption.
Defined.

(** X10.  The sort route with [by] absent, empty or [date] and [order]
    absent, empty or [desc] answers with the status and the entries, in the
    order, of list-all, and leaves the same state. *)
Theorem sort_default_is_list_all (env : Env) (w : World) (by_ order : qparam) :
  by_ = QAbsent \/ by_ = QStr "" \/ by_ = QStr "date" ->
  order = QAbsent \/ order = QStr "" \/ order = QStr "desc" ->
  status (fst (handle env (GET_vault_sort by_ order) w))
  = status (fst (handle env GET_vault w))
  /\ response_entries (fst (handle env (GET_vault_sort by_ order) w))
     = response_entries (fst (handle env GET_vault w))
  /\ snd (handle env (GET_vault_sort by_ order) w) = snd (handle env GET_vault w).
Proof.
  intros [-> | [-> | ->]] [-> | [-> | ->]].
  all: cbn [handle]; unfold get_vault_sort, get_vault; cbn; mrun.
  all: destruct (db_ok env (db_calls w)); repeat split.
Qed.

Lemma sort_default_is_list_all_witness :
  response_entries (fst (handle calm (GET_vault_sort (QStr "date") QAbsent) one_entry))
  = response_entries (fst (handle calm GET_vault one_entry)).
Proof.
  apply (sort_default_is_list_all calm one_entry (QStr "date") QAbsent); auto.
Defined.

(** *** Round trips *)





Lemma find_delete_first o l e :
  NoDup (map _id l) -> find (has_id o) l = Some e ->
  find (has_id o) (delete_first o l) = None /\ ~ In o (map _id (delete_first o l)).
Proof.
  induction l as [|y l IH]; cbn; [discriminate|].
  intros Hnd Hf. inversion Hnd as [|? ? Hn Hl]; subst.
  destruct (has_id o y) eqn:Hy.
  - unfold has_id in Hy. apply Nat.eqb_eq in Hy. subst o.
    split; [|exact Hn].
    destruct (find (has_id (_id y)) l) as [x|] eqn:Hx; [|reflexivity].
    exfalso. apply Hn. apply find_some_In in Hx. destruct Hx as [Hin Hid].
    apply in_map_iff. now exists x.
  - destruct (IH Hl Hf) as [H1 H2]. cbn. rewrite Hy. split; [exact H1|].
    intros [H|H]; [|now apply H2].
    unfold has_id in Hy. apply Nat.eqb_neq in Hy. congruence.
Qed.

(** X12.  After a delete answered 200, identifiers being pairwise distinct:
    neither the identifier nor the entry is in the collection any more, and
    (the store answering) a get and a second delete of the same id are
    answered 404, the second delete writing no backup. *)
Theorem delete_is_permanent (env : Env) (w : World) (o : ObjectId) (e : VaultEntry) :
  NoDup (ids w) ->
  find (has_id o) (docs w) = Some e ->
  status (fst (handle env (DELETE_vault_id (ValidId o)) w)) = 200%nat ->
  let w' := snd (handle env (DELETE_vault_id (ValidId o)) w) in
  ~ In o (ids w')
  /\ ~ In e (docs w')
  /\ (db_ok env (db_calls w') = true ->
      status (fst (handle env (GET_vault_id (ValidId o)) w')) = 404%nat
      /\ status (fst (handle env (DELETE_vault_id (ValidId o)) w')) = 404%nat
      /\ files (snd (handle env (DELETE_vault_id (ValidId o)) w')) = files w').
Proof.
  intros Hnd Hf Hs w'. subst w'. unfold ids in *.
  destruct (find_delete_first o (docs w) e Hnd Hf) as [Hnone Hnotin].
  pose proof (find_some_In _ _ _ Hf) as [_ Hid].
  assert (Hgone : forall w0, docs w0 = delete_first o (docs w) ->
            ~ In o (map _id (docs w0)) /\ ~ In e (docs w0)
            /\ (db_ok env (db_calls w0) = true ->
                status (fst (handle env (GET_vault_id (ValidId o)) w0)) = 404%nat
                /\ status (fst (handle env (DELETE_vault_id (ValidId o)) w0))
                   = 404%nat
                /\ files (snd (handle env (DELETE_vault_id (ValidId o)) w0))
                   = files w0)).
  { intros w0 Hd. rewrite Hd. split; [exact Hnotin|]. split.
    - intros Hin. apply Hnotin. apply in_map_iff. now exists e.
    - intros Hdb. cbn [handle]. unfold get_vault_id, delete_vault_id. mrun.
      rewrite Hdb. mrun. rewrite Hd, Hnone. cbn. auto. }
  revert Hs. name_handle. unfold_handlers. mrun.
  destruct (db_ok env (db_calls w)); mrun; [|intros ->; discriminate].
  rewrite Hf. rewrite createBackup_run. unfold write_succeeds. mrun.
  destruct (db_ok env (S (db_calls w))); mrun; [|intros ->; discriminate].
  destruct (backups_dir w && fs_ok env (fs_calls w)); mrun;
    [|intros ->; discriminate].
  destruct (db_ok env (S (S (db_calls w)))); mrun; [|intros ->; discriminate].
  rewrite Hf. mrun. intros -> _. apply Hgone. reflexivity.
Qed.

Lemma delete_is_permanent_witness :
  ~ In 0%nat (ids (snd (handle calm (DELETE_vault_id (ValidId 0%nat)) one_entry))).
Proof.
  assert (Hnd : NoDup (ids one_entry)) by (repeat constructor; intros []).
  apply (delete_is_permanent calm one_entry 0%nat sample_entry Hnd eq_refl eq_refl).
Defined.

(** *** Search *)







(** *** Backup files *)

Lemma BackupName_eqb_refl f : BackupName_eqb f f = true.
Proof.
  unfold BackupName_eqb. now rewrite String.eqb_refl, Z.eqb_refl.
Qed.

Lemma BackupName_eqb_eq f g : BackupName_eqb f g = true -> f = g.
Proof.
  unfold BackupName_eqb. intros H. apply andb_prop in H. destruct H as [H1 H2].
  apply String.eqb_eq in H1. apply Z.eqb_eq in H2.
  destruct f, g; cbn in *; congruence.
Qed.

Lemma write_entry_twice f d1 d2 l :
  write_entry f d2 (write_entry f d1 l) = write_entry f d2 l.
Proof.
  induction l as [|[g d] l IH]; cbn.
  - now rewrite BackupName_eqb_refl.
  - destruct (BackupName_eqb g f) eqn:E; cbn.
    + now rewrite BackupName_eqb_refl.
    + now rewrite E, IH.
Qed.

Lemma write_entry_unique f d l s :
  NoDup (map fst l) -> In (f, s) (write_entry f d l) -> s = d.
Proof.
  induction l as [|[g d0] l IH]; cbn; intros Hnd Hin.
  - destruct Hin as [[= <-]|[]]. reflexivity.
  - inversion Hnd as [|? ? Hn Hl]; subst.
    destruct (BackupName_eqb g f) eqn:E; cbn in Hin.
    + apply BackupName_eqb_eq in E. subst g.
      destruct Hin as [[= <-]|Hin]; [reflexivity|].
      exfalso. apply Hn. apply in_map_iff. now exists (f, s).
    + destruct Hin as [[= -> _]|Hin]; [|now apply IH].
      now rewrite BackupName_eqb_refl in E.
Qed.

Lemma write_entry_length_twice f d1 d2 l :
  List.length (write_entry f d2 (write_entry f d1 l))
  = List.length (write_entry f d1 l).
Proof.
  induction l as [|[g d] l IH]; cbn.
  - now rewrite BackupName_eqb_refl.
  - destruct (BackupName_eqb g f) eqn:E; cbn.
    + now rewrite BackupName_eqb_refl.
    + rewrite E. cbn. now rewrite IH.
Qed.

(** X14.  Two successful backups of the same operation whose file names are
    stamped in the same millisecond go to the same file: the second call
    returns the same name, adds no file to the directory, and the only
    snapshot left under that name is the second one. *)
Theorem backups_in_same_millisecond_collide
        (env : Env) (op : string) (d1 d2 : jsval * ObjectId)
        (w w1 w2 : World) (f1 f2 : BackupName) :
  createBackup env op d1 w = (Ok f1, w1) ->
  createBackup env op d2 w1 = (Ok f2, w2) ->
  clock env (ticks w1) = clock env (ticks w) ->
  NoDup (backup_names w) ->
  f2 = f1
  /\ List.length (files w2) = List.length (files w1)
  /\ forall s, In (f1, s) (files w2) -> trigger s = Some d2.
Proof.
  unfold backup_names. intros H1 H2 Hclock Hnd.
  rewrite createBackup_run in H1, H2.
  destruct (db_ok env (db_calls w)); [|discriminate].
  destruct (write_succeeds env w); [|discriminate].
  destruct (db_ok env (db_calls w1)); [|discriminate].
  destruct (write_succeeds env w1); [|discriminate].
  injection H1 as Hf1 Hw1. injection H2 as Hf2 Hw2.
  assert (Hf : f2 = f1) by (rewrite <- Hf1, <- Hf2, Hclock; reflexivity).
  split; [exact Hf|].
  assert (Hfiles : files w1 = write_entry f1
                     (mkBackupData (clock env (S (ticks w))) op (Some d1) (docs w)
                                   (List.length (docs w))) (files w))
    by (rewrite <- Hw1, <- Hf1; reflexivity).
  rewrite <- Hw2. cbn [files]. rewrite Hclock. rewrite Hf1.
  rewrite Hfiles. split; [apply write_entry_length_twice|].
  intros s Hin. rewrite write_entry_twice in Hin.
  apply write_entry_unique in Hin; [|exact Hnd]. now subst s.
Qed.

(** *** Statistics *)

Lemma jsval_ind_nested (P : jsval -> Prop) :
  P JUndefined -> P JNull -> (forall b, P (JBool b)) -> (forall n, P (JNum n)) ->
  (forall s, P (JStr s)) -> (forall l, Forall P l -> P (JArr l)) -> P JObj ->
  forall v, P v.
Proof.
  intros Hu Hn Hb Hz Hs Ha Ho.
  fix IH 1. intros [| |b|n|s|l|].
  - exact Hu.
  - exact Hn.
  - apply Hb.
  - apply Hz.
  - apply Hs.
  - apply Ha. induction l as [|x l IHl]; constructor; [apply IH | exact IHl].
  - exact Ho.
Qed.

Lemma jsval_eqb_eq : forall a b, jsval_eqb a b = true <-> a = b.
Proof.
  induction a as [| |x|x|x|l IH|] using jsval_ind_nested;
    intros [| |y|y|y|m|]; cbn; try (split; [discriminate | discriminate]);
    try (split; reflexivity).
  - rewrite Bool.eqb_true_iff. split; congruence.
  - rewrite Z.eqb_eq. split; congruence.
  - rewrite String.eqb_eq. split; congruence.
  - assert (H : list_eqb jsval_eqb l m = true <-> l = m).
    { revert m. induction IH as [|x l Hx _ IHl]; intros [|y m]; cbn;
        try (split; [discriminate | discriminate]); [split; reflexivity|].
      rewrite andb_true_iff, Hx, IHl. split; [intros [-> ->] | intros [= -> ->]]; auto. }
    rewrite H. split; congruence.
Qed.

Lemma jsval_eqb_refl a : jsval_eqb a a = true.
Proof. now apply jsval_eqb_eq. Qed.

Lemma total_count_cons k n g : total_count ((k, n) :: g) = (n + total_count g)%nat.
Proof. reflexivity. Qed.

Lemma tally_total k g : total_count (tally k g) = S (total_count g).
Proof.
  induction g as [|[k' n] g IH]; [reflexivity|]. cbn [tally].
  destruct (jsval_eqb k' k); rewrite !total_count_cons; [|rewrite IH]; lia.
Qed.

Lemma group_by_category_total l :
  total_count (group_by_category l) = List.length l.
Proof.
  unfold group_by_category.
  assert (H : forall acc,
             total_count (fold_left (fun groups e =>
                                       tally (group_key (category e)) groups) l acc)
             = (total_count acc + List.length l)%nat).
  { induction l as [|e l IH]; intros acc; cbn [fold_left List.length]; [lia|].
    rewrite IH, tally_total. lia. }
  rewrite H. reflexivity.
Qed.

Lemma insert_group_perm g l : Permutation (insert_group g l) (g :: l).
Proof.
  induction l as [|h l IH]; cbn; [apply Permutation_refl|].
  destruct (snd h <=? snd g)%nat; [apply Permutation_refl|].
  eapply perm_trans; [apply perm_skip, IH | apply perm_swap].
Qed.

Lemma sort_groups_perm l : Permutation (sort_groups l) l.
Proof.
  induction l as [|g l IH]; cbn; [apply perm_nil|].
  eapply perm_trans; [apply insert_group_perm | apply perm_skip, IH].
Qed.

Lemma sort_groups_sorted l :
  StronglySorted (fun a b => (snd b <= snd a)%nat) (sort_groups l).
Proof.
  apply Sorted_StronglySorted; [intros a b c; lia|].
  induction l as [|g l IH]; cbn; [constructor|].
  revert IH. generalize (sort_groups l). intros s Hs.
  induction Hs as [|h s Hs IH Hhd]; cbn; [repeat constructor|].
  destruct (snd h <=? snd g)%nat eqn:E.
  - apply Nat.leb_le in E. constructor; [now constructor | now constructor].
  - apply Nat.leb_gt in E. constructor; [exact IH|].
    destruct s as [|h' s]; cbn; [constructor; lia|].
    destruct (snd h' <=? snd g)%nat; constructor; [lia | now inversion Hhd].
Qed.

(** Counting one more document adds its key when it is new, and keeps the
    keys distinct. *)
Lemma tally_keys k g :
  NoDup (map fst g) ->
  NoDup (map fst (tally k g))
  /\ (forall k', In k' (map fst (tally k g)) <-> In k' (map fst g) \/ k' = k).
Proof.
  induction g as [|[k0 n] g IH]; cbn; intros Hnd.
  - split.
    + constructor; [intros [] | constructor].
    + intros k'. split; [intros [H|[]]; now right | intros [[]|H]; now left].
  - inversion Hnd as [|? ? Hn Hg]; subst.
    destruct (jsval_eqb k0 k) eqn:E; cbn.
    + apply jsval_eqb_eq in E. subst k0. split; [exact Hnd|].
      intros k'. split; [tauto | intros [H | ->]; auto].
    + destruct (IH Hg) as [H1 H2]. split.
      * constructor; [|exact H1]. rewrite H2. intros [H|H]; [now apply Hn|].
        subst k0. now rewrite jsval_eqb_refl in E.
      * intros k'. rewrite H2. tauto.
Qed.

Lemma tally_count k g k' n :
  NoDup (map fst g) ->
  In (k', n) (tally k g) ->
  (k' = k /\ ((exists m, In (k, m) g /\ n = S m) \/ (~ In k (map fst g) /\ n = 1%nat)))
  \/ (k' <> k /\ In (k', n) g).
Proof.
  induction g as [|[k0 m] g IH]; cbn; intros Hnd Hin.
  - destruct Hin as [[= <- <-]|[]]. left. split; [reflexivity|]. right. tauto.
  - inversion Hnd as [|? ? Hn Hg]; subst.
    destruct (jsval_eqb k0 k) eqn:E; cbn in Hin.
    + apply jsval_eqb_eq in E. subst k0.
      destruct Hin as [[= <- <-]|Hin].
      * left. split; [reflexivity|]. left. exists m. auto.
      * right. split; [|now right]. intros ->. apply Hn.
        apply in_map_iff. now exists (k, n).
    + assert (Hk : k0 <> k) by (intros ->; now rewrite jsval_eqb_refl in E).
      destruct Hin as [[= <- <-]|Hin].
      * right. split; [exact Hk | now left].
      * destruct (IH Hg Hin) as [[-> [(m' & Hm & ->)|[Hnot ->]]]|[Hne Hin']].
        -- left. split; [reflexivity|]. left. exists m'. auto.
        -- left. split; [reflexivity|]. right. split; [|reflexivity].
           intros [H|H]; [congruence | now apply Hnot].
        -- right. split; [exact Hne | now right].
Qed.

(** The groups of a collection: one per category, each with the number of
    its documents. *)
Lemma group_by_category_counts l :
  let g := group_by_category l in
  NoDup (map fst g)
  /\ (forall e, In e l -> In (group_key (category e)) (map fst g))
  /\ (forall k n, In (k, n) g ->
        n = List.length (filter (fun e => jsval_eqb (group_key (category e)) k) l)
        /\ (1 <= n)%nat).
Proof.
  unfold group_by_category.
  set (step := fun groups e => tally (group_key (category e)) groups).
  assert (H : forall acc (seen : list VaultEntry),
    NoDup (map fst acc) ->
    (forall k n, In (k, n) acc ->
       n = List.length (filter (fun e => jsval_eqb (group_key (category e)) k) seen)
       /\ (1 <= n)%nat) ->
    (forall k, ~ In k (map fst acc) ->
       filter (fun e => jsval_eqb (group_key (category e)) k) seen = []) ->
    let g := fold_left step l acc in
    NoDup (map fst g)
    /\ (forall k, In k (map fst acc) -> In k (map fst g))
    /\ (forall e, In e l -> In (group_key (category e)) (map fst g))
    /\ (forall k n, In (k, n) g ->
          n = List.length
                (filter (fun e => jsval_eqb (group_key (category e)) k) (seen ++ l))
          /\ (1 <= n)%nat)).
  { induction l as [|e l IH]; intros acc seen Hnd Hcnt Hnone; cbn.
    - rewrite app_nil_r. split; [exact Hnd|]. split; [auto|].
      split; [intros e []| exact Hcnt].
    - destruct (tally_keys (group_key (category e)) acc Hnd) as [Hnd' Hkeys].
      specialize (IH (step acc e) (seen ++ [e])%list Hnd').
      assert (Hf : forall k,
        filter (fun e0 => jsval_eqb (group_key (category e0)) k) (seen ++ [e])
        = (filter (fun e0 => jsval_eqb (group_key (category e0)) k) seen
           ++ (if jsval_eqb (group_key (category e)) k then [e] else []))%list).
      { intros k. rewrite filter_app. cbn.
        destruct (jsval_eqb (group_key (category e)) k); reflexivity. }
      destruct IH as (I1 & I2 & I3 & I4).
      + intros k n Hin. unfold step in Hin.
        rewrite Hf, length_app.
        destruct (tally_count _ _ _ _ Hnd Hin)
          as [[-> [(m & Hm & ->)|[Hnot ->]]]|[Hne Hin']].
        * rewrite jsval_eqb_refl. cbn. destruct (Hcnt _ _ Hm) as [-> _]. lia.
        * rewrite jsval_eqb_refl, (Hnone _ Hnot). cbn. lia.
        * destruct (jsval_eqb (group_key (category e)) k) eqn:E.
          -- apply jsval_eqb_eq in E. congruence.
          -- cbn. rewrite Nat.add_0_r. now apply Hcnt.
      + intros k Hk. rewrite Hf.
        assert (Hk' : ~ In k (map fst acc) /\ k <> group_key (category e)).
        { unfold step in Hk. rewrite Hkeys in Hk. tauto. }
        destruct Hk' as [Hk1 Hk2]. rewrite (Hnone _ Hk1).
        destruct (jsval_eqb (group_key (category e)) k) eqn:E; [|reflexivity].
        apply jsval_eqb_eq in E. congruence.
      + split; [exact I1|]. split.
        * intros k Hk. apply I2. unfold step. rewrite Hkeys. now left.
        * split.
          -- intros e0 [<-|He0]; [|now apply I3].
             apply I2. unfold step. rewrite Hkeys. now right.
          -- intros k n Hin. rewrite <- app_assoc in I4. now apply I4. }
  cbv zeta in H |- *.
  destruct (H [] [] (NoDup_nil _)) as (H1 & _ & H3 & H4).
  - intros k n [].
  - reflexivity.
  - split; [exact H1|]. split; [exact H3 | exact H4].
Qed.

Lemma total_count_perm g g' :
  Permutation g g' -> total_count g = total_count g'.
Proof.
  induction 1 as [|[k n] g g' _ IH|[k n] [k' n'] g|g g' g'' _ IH1 _ IH2].
  - reflexivity.
  - rewrite !total_count_cons. now rewrite IH.
  - rewrite !total_count_cons. lia.
  - congruence.
Qed.

(** X15.  The category counts of the statistics route, when the store
    answers: the counts add up to the number of entries, the groups come by
    decreasing count, there is one group per category (an unset category
    grouping with [null]), every entry falls in a group, and the count of a
    group is the number of entries of that category, at least 1. *)
Theorem stats_category_counts (env : Env) (w : World) :
  db_ok env (db_calls w) = true ->
  exists groups,
    fst (Vault_aggregate_categories env w) = Ok groups
    /\ docs (snd (Vault_aggregate_categories env w)) = docs w
    /\ total_count groups = List.length (docs w)
    /\ StronglySorted (fun a b => (snd b <= snd a)%nat) groups
    /\ NoDup (map fst groups)
    /\ (forall e, In e (docs w) -> In (group_key (category e)) (map fst groups))
    /\ (forall k n, In (k, n) groups ->
          n = List.length
                (filter (fun e => jsval_eqb (group_key (category e)) k) (docs w))
          /\ (1 <= n)%nat).
Proof.
  intros Hdb. unfold Vault_aggregate_categories. mrun. rewrite Hdb. mrun.
  eexists. split; [reflexivity|]. split; [reflexivity|].
  pose proof (sort_groups_perm (group_by_category (docs w))) as Hperm.
  destruct (group_by_category_counts (docs w)) as (H1 & H2 & H3).
  split.
  { rewrite <- group_by_category_total. now apply total_count_perm. }
  split; [apply sort_groups_sorted|].
  split.
  { eapply Permutation_NoDup; [|exact H1].
    apply Permutation_map, Permutation_sym, Hperm. }
  split.
  { intros e He. eapply Permutation_in; [|apply H2, He].
    apply Permutation_map, Permutation_sym, Hperm. }
  intros k n Hin. apply H3. eapply Permutation_in; [exact Hperm | exact Hin].
Qed.

Lemma stats_category_counts_witness :
  fst (Vault_aggregate_categories calm three_categories)
  = Ok [(JStr "general", 2%nat); (JStr "work", 1%nat)]
  /\ exists groups,
      fst (Vault_aggregate_categories calm three_categories) = Ok groups
      /\ total_count groups = 3%nat.
Proof.
  split; [reflexivity|].
  destruct (stats_category_counts calm three_categories eq_refl)
    as (groups & H1 & _ & H2 & _).
  exists groups. split; [exact H1 | exact H2].
Defined.

Lemma createdAt_sorted sortOrder l :
  sortOrder = 1 \/ sortOrder = -1 ->
  StronglySorted
    (fun a b => if sortOrder =? 1 then createdAt a <= createdAt b
                else createdAt b <= createdAt a)
    (sort_by (sort_leb "createdAt" sortOrder) l).
Proof.
  intros Ho. apply Sorted_StronglySorted.
  - intros a b c. destruct (sortOrder =? 1); lia.
  - apply Sorted_impl with (R := ordered_by (sort_leb "createdAt" sortOrder)).
    + intros a b H. unfold ordered_by, sort_leb, field_leb in H. cbn in H.
      destruct (sortOrder =? 1); now apply Z.leb_le in H.
    + apply sort_by_sorted, sort_leb_total.
Qed.

(** X16.  The queries of the statistics route for the oldest
    ([createdAt] ascending) and the newest ([createdAt] descending) entry,
    when the store answers: the result is [null] exactly when the collection
    is empty, and otherwise an entry of the collection whose [createdAt] is
    at most (at least, for the newest) that of every entry. *)
Theorem stats_oldest_newest (env : Env) (w : World) (sortOrder : Z) :
  sortOrder = 1 \/ sortOrder = -1 ->
  db_ok env (db_calls w) = true ->
  exists found,
    fst (Vault_findOne_sort env sortOrder w) = Ok found
    /\ docs (snd (Vault_findOne_sort env sortOrder w)) = docs w
    /\ (found = None <-> docs w = [])
    /\ forall e, found = Some e ->
         In e (docs w)
         /\ forall x, In x (docs w) ->
              if sortOrder =? 1 then createdAt e <= createdAt x
              else createdAt x <= createdAt e.
Proof.
  intros Ho Hdb. unfold Vault_findOne_sort. mrun. rewrite Hdb. mrun.
  eexists. split; [reflexivity|]. split; [reflexivity|].
  pose proof (sort_by_perm (sort_leb "createdAt" sortOrder) (docs w)) as Hperm.
  pose proof (createdAt_sorted sortOrder (docs w) Ho) as Hsorted.
  destruct (sort_by (sort_leb "createdAt" sortOrder) (docs w)) as [|h s] eqn:E;
    cbn.
  - split.
    + split; [intros _|reflexivity].
      apply Permutation_nil in Hperm. exact Hperm.
    + discriminate.
  - split.
    + split; [discriminate|]. intros Hd. rewrite Hd in Hperm.
      apply Permutation_sym, Permutation_nil in Hperm. discriminate.
    + intros e [= <-]. split.
      * eapply Permutation_in; [exact Hperm | now left].
      * intros x Hx. apply Permutation_sym in Hperm.
        apply (Permutation_in _ Hperm) in Hx. destruct Hx as [<-|Hx].
        -- destruct (sortOrder =? 1); lia.
        -- inversion Hsorted as [|? ? _ Hall]; subst.
           rewrite Forall_forall in Hall. now apply Hall.
Qed.

Lemma stats_oldest_newest_witness :
  exists found,
    fst (Vault_findOne_sort calm 1 three_categories) = Ok found
    /\ (found = None <-> docs three_categories = []).
Proof.
  destruct (stats_oldest_newest calm three_categories 1 (or_introl eq_refl) eq_refl)
    as (found & H1 & _ & H2 & _).
  exists found. split; [exact H1 | exact H2].
Defined.

(** *** Export *)

Section ExportProperties.

Variable toISOString : Z -> string.
Variable ObjectId_toString : ObjectId -> string.
Variable exportPath : string.

Lemma export_entries_exportable l : forall index,
  export_entries toISOString ObjectId_toString index l <> None
  <-> exportable l = true.
Proof.
  induction l as [|e l IH]; intros index; cbn.
  - split; [reflexivity | discriminate].
  - unfold export_entry. destruct (tags_array (tags e)); cbn.
    + specialize (IH (S index)).
      destruct (export_entries toISOString ObjectId_toString (S index) l).
      * split; [intros _; apply IH; discriminate | discriminate].
      * split; [congruence|]. intros H. apply IH in H. congruence.
    + split; [congruence | discriminate].
Qed.

Lemma exportable_perm l l' :
  Permutation l l' -> exportable l = exportable l'.
Proof.
  unfold exportable. induction 1; cbn.
  - reflexivity.
  - now rewrite IHPermutation.
  - destruct (tags_array (tags x)), (tags_array (tags y)); reflexivity.
  - congruence.
Qed.

End ExportProperties.

(** X17.  The export route leaves collection, backup files and write log as
    they were and answers 200 or 500.  It answers 200 exactly when the store
    answers, [tags] can be joined in every entry and the file write goes
    through; then it reports the number of entries of the collection and
    the file starts with the header carrying that number.  On a 500 nothing
    is written, and an entry whose [tags] cannot be joined makes it a
    TypeError. *)
Theorem export_contract (toISOString : Z -> string)
        (ObjectId_toString : ObjectId -> string) (exportPath : string)
        (env : Env) (w : World) :
  let run := get_export toISOString ObjectId_toString exportPath env w in
  let w' := snd run in
  docs w' = docs w /\ files w' = files w /\ log w' = log w
  /\ exists resp written,
      fst run = Ok (resp, written)
      /\ (export_status resp = 200%nat \/ export_status resp = 500%nat)
      /\ (export_status resp = 200%nat <->
          db_ok env (db_calls w) = true /\ exportable (docs w) = true
          /\ fs_ok env (fs_calls w) = true)
      /\ (export_status resp = 200%nat ->
          export_json resp
          = ExportDone "Data exported successfully" "export.txt" exportPath
                       (List.length (docs w))
          /\ exists blocks,
              written = Some (export_header toISOString
                                (clock env (ticks w)) (List.length (docs w))
                              ++ blocks)%string)
      /\ (export_status resp = 500%nat -> written = None)
      /\ (db_ok env (db_calls w) = true -> exportable (docs w) = false ->
          export_json resp = ExportFailed "Export failed" TypeError).
Proof.
  intros run w'. subst run w'.
  unfold get_export, fs_writeFile_export. mrun.
  destruct (db_ok env (db_calls w)) eqn:Hdb; mrun.
  2:{ repeat split. do 2 eexists. split; [reflexivity|]. cbn.
      repeat split; auto; try discriminate.
      intros (H & _). discriminate. }
  pose proof (sort_by_perm (sort_leb "createdAt" (-1)) (docs w)) as Hperm.
  pose proof (export_entries_exportable toISOString ObjectId_toString
                (sort_by (sort_leb "createdAt" (-1)) (docs w)) 0) as Hex.
  rewrite (exportable_perm _ _ Hperm) in Hex.
  destruct (export_entries toISOString ObjectId_toString 0
              (sort_by (sort_leb "createdAt" (-1)) (docs w))) as [blocks|]; mrun.
  - assert (Hx : exportable (docs w) = true) by (apply Hex; discriminate).
    destruct (fs_ok env (fs_calls w)) eqn:Hfs; mrun.
    + repeat split. do 2 eexists. split; [reflexivity|]. cbn.
      rewrite (Permutation_length Hperm).
      repeat split; auto; try discriminate.
      * now exists blocks.
      * congruence.
    + repeat split. do 2 eexists. split; [reflexivity|]. cbn.
      repeat split; auto; try discriminate.
      * intros (_ & _ & H). discriminate.
      * congruence.
  - assert (Hx : exportable (docs w) = false).
    { destruct (exportable (docs w)); [|reflexivity].
      exfalso. now apply (proj2 Hex). }
    repeat split. do 2 eexists. split; [reflexivity|]. cbn.
    repeat split; auto; try discriminate.
    intros (_ & H & _). congruence.
Qed.

(** *** Instances *)


Lemma read_routes_change_nothing_witness :
  docs (snd (handle calm (GET_vault_search (QStr "a")) one_entry)) = docs one_entry.
Proof.
  apply (read_routes_change_nothing calm (GET_vault_search (QStr "a")) one_entry).
  reflexivity.
Defined.


Lemma backups_never_removed_witness :
  In (mkBackupName "CREATE" 3)
     (backup_names (snd (serve calm [DELETE_vault_id (ValidId 0%nat)] one_entry))).
Proof.
  apply (backups_never_removed calm [DELETE_vault_id (ValidId 0%nat)] one_entry).
  vm_compute. now left.
Defined.

Lemma backups_in_same_millisecond_collide_witness :
  let w1 := snd (createBackup same_ms "DELETE" (JStr "A", 0%nat) started) in
  let w2 := snd (createBackup same_ms "DELETE" (JStr "B", 1%nat) w1) in
  List.length (files w2) = List.length (files w1)
  /\ List.length (files w1) = 1%nat.
Proof.
  intros w1 w2. split; [|reflexivity].
  assert (Hnd : NoDup (backup_names started)) by constructor.
  apply (backups_in_same_millisecond_collide same_ms "DELETE"
           (JStr "A", 0%nat) (JStr "B", 1%nat) started w1 w2
           (mkBackupName "DELETE" 0) (mkBackupName "DELETE" 0)
           eq_refl eq_refl eq_refl Hnd).
Defined.

Lemma export_contract_witness :
  docs (snd (get_export number_toString
               (fun o => number_toString (Z.of_nat o)) "export.txt"
               calm one_entry)) = docs one_entry.
Proof.
  apply (export_contract number_toString
           (fun o => number_toString (Z.of_nat o)) "export.txt" calm one_entry).
Defined.
